(** * Portfolio-v2: the hero canvas particle mesh, the throttle helper, the
      typing effect, the navigation bar, the contact form and the deploy script

    A shallow embedding of [src/js/main.js] (the [throttle] helper and the
    [initCanvas], [initTyping], [initNav] and [initContactForm] blocks) and of
    [scripts/deploy.sh] with [scripts/build.sh], followed by the properties of
    the specification that concern them and by further properties of the code.

    Conventions of the embedding.
    - A JavaScript number is an exact rational ([Q]): rounding of IEEE doubles
      is not modelled.  Comparisons, [Math.floor], [Math.round] and [Math.min]
      are the exact ones; [Math.sqrt] is a function supplied by the host and is
      a parameter of the model.
    - [Math.random] reads the next value of a stream of draws; the stream is
      part of the state, so that every use of randomness is explicit.
    - The 2D context is a log of the drawing operations issued on it.
    - The browser is a source of events (resize, visibilitychange, animation
      frame); the closure variables of [initCanvas] form the state on which the
      handlers act.
    - The shell scripts act on a small description of the file system, the
      environment and the exit statuses of the external tools.
    - Timeouts are a list of pending callbacks with the time at which each is
      due; the host runs the one that is due first.
    - A string that the code inspects unit by unit is the list of its UTF-16
      code units. *)

From Stdlib Require Import String QArith Qround Lqa ZArith Lia List Bool Sorted.
Import ListNotations.

Local Open Scope Q_scope.

(** ** JavaScript numbers *)

(** [a < b] on numbers, as a boolean. *)
Definition Qltb (a b : Q) : bool := negb (Qle_bool b a).

(** [Math.floor]. *)
Definition Math_floor (a : Q) : Z := Qfloor a.

(** [Math.round]: the nearest integer, a tie going up. *)
Definition Math_round (a : Q) : Z := Qfloor (a + (1 # 2)).

(** [Math.min] on integers. *)
Definition Math_min (a b : Z) : Z := Z.min a b.

(** ** The random source *)

Record rng : Type := mkRng { draws : nat -> Q; cursor : nat }.

(** Computations that consume random draws. *)
Definition Rand (A : Type) : Type := rng -> A * rng.

Definition ret {A : Type} (a : A) : Rand A := fun g => (a, g).

Definition bind {A B : Type} (m : Rand A) (k : A -> Rand B) : Rand B :=
  fun g => let (a, g') := m g in k a g'.

Notation "v <- m ;; k" := (bind m (fun v => k))
  (at level 61, m at next level, right associativity).

Definition Math_random : Rand Q :=
  fun g => (draws g (cursor g), mkRng (draws g) (S (cursor g))).

(** Every draw lies in [[0, 1)], as [Math.random] promises. *)
Definition unit_draws (g : rng) : Prop :=
  forall n : nat, 0 <= draws g n /\ draws g n < 1.

(** ** Colours *)

Module RGB.
Record color : Type := mk { r : Z; g : Z; b : Z }.
End RGB.

(** The colours of the CSS variables [--clr-accent] and [--clr-cyan]. *)
Definition ACCENT : RGB.color := RGB.mk 124 109 250.
Definition CYAN : RGB.color := RGB.mk 34 211 238.

(** px: the largest distance at which two particles are joined by a line. *)
Definition CONNECT_DIST : Q := 160.

Definition lerp (a b t : Q) : Q := a + (b - a) * t.

Definition interpolateColor (t : Q) : RGB.color :=
  RGB.mk (Math_round (lerp (inject_Z (RGB.r ACCENT)) (inject_Z (RGB.r CYAN)) t))
         (Math_round (lerp (inject_Z (RGB.g ACCENT)) (inject_Z (RGB.g CYAN)) t))
         (Math_round (lerp (inject_Z (RGB.b ACCENT)) (inject_Z (RGB.b CYAN)) t)).

(** ** The drawing context *)

Inductive op : Type :=
| clearRect (x y w h : Q)
| fillArc (x y radius : Q) (c : RGB.color) (alpha : Q)
| strokeLine (x1 y1 x2 y2 : Q) (c : RGB.color) (alpha lineWidth : Q).

(** ** class Particle *)

Module Particle.

Record state : Type := mk { x : Q; y : Q; vx : Q; vy : Q; r : Q; t : Q }.

(** [reset(initial = false)].  Every field of [this] is overwritten, so the
    result does not depend on the previous fields.  [None] stands for a call
    without argument.  The draws are taken in the order of the assignments. *)
Definition reset (initial : option bool) (width height : Q) : Rand state :=
  let initial := match initial with Some i => i | None => false end in
  x0 <- Math_random ;;
  y0 <- (if initial then Math_random else Math_random) ;;
  vx0 <- Math_random ;;
  vy0 <- Math_random ;;
  r0 <- Math_random ;;
  t0 <- Math_random ;;
  ret (mk (x0 * width) (y0 * height)
          ((vx0 - (1 # 2)) * (45 # 100)) ((vy0 - (1 # 2)) * (45 # 100))
          (r0 * (18 # 10) + (8 # 10)) t0).

(** [constructor() { this.reset(true); }] *)
Definition new (width height : Q) : Rand state := reset (Some true) width height.

(** [move()]: the four wrap tests run in the order of the source, each on
    the value left by the previous one. *)
Definition move (width height : Q) (p : state) : state :=
  let x1 := x p + vx p in
  let y1 := y p + vy p in
  let x2 := if Qltb x1 (-10 # 1) then width + 10 else x1 in
  let x3 := if Qltb (width + 10) x2 then (-10 # 1) else x2 in
  let y2 := if Qltb y1 (-10 # 1) then height + 10 else y1 in
  let y3 := if Qltb (height + 10) y2 then (-10 # 1) else y2 in
  mk x3 y3 (vx p) (vy p) (r p) (t p).

(** [draw()]: one filled circle at alpha 0.65. *)
Definition draw (p : state) : op :=
  fillArc (x p) (y p) (r p) (interpolateColor (t p)) (65 # 100).

End Particle.

(** ** throttle *)

(** [throttle(fn, limit)] returns a closure over [last], which starts at [0].
    A call made when [Date.now()] is [now] runs [fn] with the call's arguments
    if at least [limit] ms have passed since [last], and then records [now];
    otherwise the call is dropped.  The closure's [last] is threaded next to
    the state [S] on which [fn] acts. *)
Definition throttle {A S : Type} (fn : A -> S -> S) (limit : Z)
    (args : A) (now : Z) (st : Z * S) : Z * S :=
  let (last, s) := st in
  if (limit <=? now - last)%Z then (now, fn args s) else (last, s).

(** A burst of calls, one per [Date.now()] value of [nows]. *)
Definition throttle_calls {A S : Type} (fn : A -> S -> S) (limit : Z)
    (calls : list (A * Z)) (st : Z * S) : Z * S :=
  fold_left (fun st c => throttle fn limit (fst c) (snd c) st) calls st.

(** The throttled callback that notes the time of each of its runs. *)
Definition note_time (now : Z) (log : list Z) : list Z := log ++ [now].

(** The times at which the throttled callback runs, for calls at [nows],
    starting from a closure whose [last] is [last]. *)
Definition fire_times (limit last : Z) (nows : list Z) : list Z :=
  snd (throttle_calls note_time limit (map (fun n => (n, n)) nows) (last, [])).

(** ** initCanvas *)

(** What the script reads from the window and from the canvas element. *)
Record viewport : Type := mkViewport {
  innerWidth : Q;         (* window.innerWidth *)
  offsetWidth : Q;        (* canvas.offsetWidth *)
  offsetHeight : Q;       (* canvas.offsetHeight *)
  devicePixelRatio : Q    (* window.devicePixelRatio; 0 when it is missing *)
}.

(** The closure of [initCanvas] together with the part of the page it acts on. *)
Record canvas : Type := mkCanvas {
  PARTICLE_COUNT : Z;                 (* const, set when the script starts *)
  width : Q;
  height : Q;
  particles : list Particle.state;
  animId : option nat;                (* [None]: still undefined *)
  last : Z;                           (* of the throttled resize handler *)
  window : viewport;
  hidden : bool;                      (* document.hidden *)
  buffer : Q * Q * Q;                 (* canvas.width, canvas.height, scale *)
  callbacks : list nat;               (* frame requests not yet run or cancelled *)
  next_handle : nat;
  random : rng;
  ctx : list op
}.

Definition set_particles (ps : list Particle.state) (g : rng) (s : canvas) : canvas :=
  mkCanvas (PARTICLE_COUNT s) (width s) (height s) ps (animId s) (last s)
           (window s) (hidden s) (buffer s) (callbacks s) (next_handle s) g (ctx s).

Definition set_ctx (log : list op) (s : canvas) : canvas :=
  mkCanvas (PARTICLE_COUNT s) (width s) (height s) (particles s) (animId s) (last s)
           (window s) (hidden s) (buffer s) (callbacks s) (next_handle s) (random s) log.

Definition set_animId (h : option nat) (s : canvas) : canvas :=
  mkCanvas (PARTICLE_COUNT s) (width s) (height s) (particles s) h (last s)
           (window s) (hidden s) (buffer s) (callbacks s) (next_handle s) (random s) (ctx s).

Definition set_callbacks (cbs : list nat) (next : nat) (s : canvas) : canvas :=
  mkCanvas (PARTICLE_COUNT s) (width s) (height s) (particles s) (animId s) (last s)
           (window s) (hidden s) (buffer s) cbs next (random s) (ctx s).

Definition set_last (l : Z) (s : canvas) : canvas :=
  mkCanvas (PARTICLE_COUNT s) (width s) (height s) (particles s) (animId s) l
           (window s) (hidden s) (buffer s) (callbacks s) (next_handle s) (random s) (ctx s).

Definition set_window (v : viewport) (s : canvas) : canvas :=
  mkCanvas (PARTICLE_COUNT s) (width s) (height s) (particles s) (animId s) (last s)
           v (hidden s) (buffer s) (callbacks s) (next_handle s) (random s) (ctx s).

Definition set_hidden (h : bool) (s : canvas) : canvas :=
  mkCanvas (PARTICLE_COUNT s) (width s) (height s) (particles s) (animId s) (last s)
           (window s) h (buffer s) (callbacks s) (next_handle s) (random s) (ctx s).

(** [Math.min(70, Math.floor(window.innerWidth / 16))] *)
Definition particle_count (v : viewport) : Z :=
  Math_min 70 (Math_floor (innerWidth v / 16)).

(** [resize()] *)
Definition resize (s : canvas) : canvas :=
  let d := devicePixelRatio (window s) in
  let dpr := if Qeq_bool d 0 then 1 else d in
  let w := offsetWidth (window s) in
  let h := offsetHeight (window s) in
  mkCanvas (PARTICLE_COUNT s) w h (particles s) (animId s) (last s)
           (window s) (hidden s) (w * dpr, h * dpr, dpr)
           (callbacks s) (next_handle s) (random s) (ctx s).

(** [Array.from({ length: n }, () => new Particle())] *)
Fixpoint new_particles (n : nat) (width height : Q) : Rand (list Particle.state) :=
  match n with
  | O => ret []
  | S k =>
      p <- Particle.new width height ;;
      ps <- new_particles k width height ;;
      ret (p :: ps)
  end.

(** [buildParticles()]; a negative length makes an empty array. *)
Definition buildParticles (s : canvas) : canvas :=
  let (ps, g) :=
    new_particles (Z.to_nat (PARTICLE_COUNT s)) (width s) (height s) (random s) in
  set_particles ps g s.

(** [requestAnimationFrame(frame)]; the only callback ever registered is
    [frame], so a request is its handle. *)
Definition requestAnimationFrame (s : canvas) : nat * canvas :=
  let h := next_handle s in
  (h, set_callbacks (callbacks s ++ [h]) (S h) s).

(** [cancelAnimationFrame(id)] *)
Definition cancelAnimationFrame (id : option nat) (s : canvas) : canvas :=
  match id with
  | Some h => set_callbacks (filter (fun k => negb (Nat.eqb k h)) (callbacks s))
                            (next_handle s) s
  | None => s
  end.

Section Canvas.

(** [Math.sqrt], supplied by the host. *)
Variable Math_sqrt : Q -> Q.

(** The body of the inner loop of [drawLines] for the pair [(pi, pj)]. *)
Definition connect (pi pj : Particle.state) : option op :=
  let dx := Particle.x pi - Particle.x pj in
  let dy := Particle.y pi - Particle.y pj in
  let dist := Math_sqrt (dx * dx + dy * dy) in
  if Qltb dist CONNECT_DIST then
    let alpha := (1 - dist / CONNECT_DIST) * (18 # 100) in
    let tAvg := (Particle.t pi + Particle.t pj) / 2 in
    let c := interpolateColor tAvg in
    Some (strokeLine (Particle.x pi) (Particle.y pi)
                     (Particle.x pj) (Particle.y pj) c alpha (8 # 10))
  else None.

(** [drawLines()]: [i] runs over the indices, [j] over those after [i].
    Each line is kept with the pair of indices it joins. *)
Definition drawLines (ps : list Particle.state) : list (nat * nat * op) :=
  flat_map (fun i =>
    flat_map (fun j =>
      match nth_error ps i, nth_error ps j with
      | Some pi, Some pj =>
          match connect pi pj with
          | Some line => [(i, j, line)]
          | None => []
          end
      | _, _ => []
      end)
      (seq (S i) (length ps - S i)))
    (seq 0 (length ps)).

(** [frame()] *)
Definition frame (s : canvas) : canvas :=
  let ps := map (Particle.move (width s) (height s)) (particles s) in
  let log := ctx s ++ [clearRect 0 0 (width s) (height s)]
                   ++ map Particle.draw ps
                   ++ map snd (drawLines ps) in
  let (h, s') := requestAnimationFrame (set_ctx log (set_particles ps (random s) s)) in
  set_animId (Some h) s'.

(** The listener on [visibilitychange]. *)
Definition on_visibilitychange (s : canvas) : canvas :=
  if hidden s then cancelAnimationFrame (animId s) s
  else let (h, s') := requestAnimationFrame s in set_animId (Some h) s'.

(** The listener on [resize]: [throttle(() => { resize(); buildParticles(); }, 200)]. *)
Definition on_resize (now : Z) (s : canvas) : canvas :=
  let (l, s') :=
    throttle (fun (_ : unit) s => buildParticles (resize s)) 200 tt now (last s, s) in
  set_last l s'.

(** What the browser does to the page. *)
Inductive event : Type :=
| Resize (v : viewport) (now : Z)     (* new sizes; Date.now() in the listener *)
| VisibilityChange (h : bool)         (* the new document.hidden *)
| AnimationFrame.                     (* the frame callbacks are run *)

(** The host takes the list of callbacks, empties it and runs each one. *)
Definition run_callbacks (s : canvas) : canvas :=
  fold_left (fun s _ => frame s) (callbacks s)
            (set_callbacks [] (next_handle s) s).

Definition step (s : canvas) (e : event) : canvas :=
  match e with
  | Resize v now => on_resize now (set_window v s)
  | VisibilityChange h => on_visibilitychange (set_hidden h s)
  | AnimationFrame => run_callbacks s
  end.

Definition run (s : canvas) (es : list event) : canvas := fold_left step es s.

(** The body of [initCanvas] when the canvas element exists: the constants,
    the listeners (initial [last = 0]), then [resize(); buildParticles();
    frame();]. *)
Definition initCanvas (v : viewport) (h : bool) (g : rng) : canvas :=
  frame (buildParticles (resize
    (mkCanvas (particle_count v) 0 0 [] None 0 v h (0, 0, 1) [] 1%nat g []))).

End Canvas.

(** ** scripts/build.sh and scripts/deploy.sh *)

Module Deploy.

Local Open Scope string_scope.

(** What a run does that can be observed from outside. *)
Inductive action : Type :=
| echo (line : string)                      (* a line on standard output *)
| diagnostic (line : string)                (* a line of the shell on standard error *)
| rm_rf_dist
| mkdir_dist
| rsync_src_dist
| ls_dist
| s3_sync_html (bucket region : string)     (* first [aws s3 sync] *)
| s3_sync_assets (bucket region : string)   (* second [aws s3 sync] *)
| create_invalidation (distribution : string).

(** What the scripts find when they start.  A directory is the list of the
    names directly under it.  The [.env] file is the list of the assignments
    [NAME=value] it makes, in order; other shell code in it is not modelled.
    An external tool is its exit status (and for the invalidation, the text
    it prints). *)
Record world : Type := mkWorld {
  root_dir : string;                             (* $ROOT_DIR *)
  env_file : option (list (string * string));    (* [None]: no .env file *)
  environ : list (string * string);              (* variables of the caller *)
  src_dir : list string;
  dist_dir : option (list string);               (* [None]: no dist/ *)
  rsync_status : Z;
  sync_html_status : Z;
  sync_assets_status : Z;
  invalidation : Z * string
}.

(** A running shell: the world, the shell variables and what was done so far. *)
Record shell : Type := mkShell {
  fs : world;
  vars : list (string * string);
  trace : list action
}.

(** A command either lets the script go on or ends it with an exit status
    ([set -e] is in force in both scripts). *)
Inductive result (A : Type) : Type :=
| go (a : A)
| exited (status : Z).
Arguments go {A} a.
Arguments exited {A} status.

Definition Sh (A : Type) : Type := shell -> result A * shell.

Definition pure {A : Type} (a : A) : Sh A := fun sh => (go a, sh).

Definition andthen {A B : Type} (m : Sh A) (k : A -> Sh B) : Sh B :=
  fun sh =>
    match m sh with
    | (go a, sh') => k a sh'
    | (exited n, sh') => (exited n, sh')
    end.

Notation "v <~ m ;; k" := (andthen m (fun v => k))
  (at level 61, m at next level, right associativity).
Notation "m ;;; k" := (andthen m (fun _ => k))
  (at level 61, right associativity).

Definition exit {A : Type} (n : Z) : Sh A := fun sh => (exited n, sh).

Definition act (a : action) : Sh unit :=
  fun sh => (go tt, mkShell (fs sh) (vars sh) (trace sh ++ [a])).

Definition say (line : string) : Sh unit := act (echo line).

(** An external command: it is run, and a non-zero status ends the script. *)
Definition tool (a : action) (status : Z) : Sh unit :=
  act a ;;; if (status =? 0)%Z then pure tt else exit status.

Definition the_world : Sh world := fun sh => (go (fs sh), sh).

Definition set_dist (d : option (list string)) : Sh unit :=
  fun sh =>
    let w := fs sh in
    (go tt, mkShell (mkWorld (root_dir w) (env_file w) (environ w) (src_dir w) d
                             (rsync_status w) (sync_html_status w)
                             (sync_assets_status w) (invalidation w))
                    (vars sh) (trace sh)).

Fixpoint lookup (name : string) (vs : list (string * string)) : option string :=
  match vs with
  | [] => None
  | (n, v) :: vs' => if String.eqb n name then Some v else lookup name vs'
  end.

(** [source "$ENV_FILE"]: the assignments are made in order. *)
Definition source (assignments : list (string * string)) : Sh unit :=
  fun sh =>
    (go tt, mkShell (fs sh)
                    (fold_left (fun vs a => a :: vs) assignments (vars sh))
                    (trace sh)).

(** [: "${NAME:?message}"]: when the variable is unset or empty the shell
    writes the message and exits with status 1. *)
Definition required (name message : string) : Sh string :=
  fun sh =>
    match lookup name (vars sh) with
    | Some v =>
        if String.eqb v EmptyString then
          (act (diagnostic (name ++ ": " ++ message)) ;;; exit 1%Z) sh
        else (go v, sh)
    | None => (act (diagnostic (name ++ ": " ++ message)) ;;; exit 1%Z) sh
    end.

(** scripts/build.sh.  What a failed [rsync] leaves in dist/ is not
    modelled: the script stops there. *)
Definition build : Sh unit :=
  w <~ the_world ;;
  say "▶ Building portfolio…" ;;;
  say ("  src  → " ++ root_dir w ++ "/src") ;;;
  say ("  dist → " ++ root_dir w ++ "/dist") ;;;
  act rm_rf_dist ;;; set_dist None ;;;
  act mkdir_dist ;;; set_dist (Some []) ;;;
  tool rsync_src_dist (rsync_status w) ;;;
  set_dist (Some (filter (fun n => negb (String.eqb n ".DS_Store")) (src_dir w))) ;;;
  say "✓ Build complete — dist/ is ready." ;;;
  act ls_dist.

(** [[[ ! -d "$DIST" ]] || [[ -z "$(ls -A "$DIST")" ]]] *)
Definition missing_or_empty (d : option (list string)) : bool :=
  match d with
  | None => true
  | Some [] => true
  | Some (_ :: _) => false
  end.

Definition dist_is_empty : string :=
  "✗ dist/ is empty. Run build.sh first or drop --skip-build.".

Definition env_not_found (w : world) : string :=
  "✗ .env file not found at " ++ root_dir w ++ "/.env".

(** The one-character string made of a backslash. *)
Definition backslash : string := String (Ascii.ascii_of_nat 92) EmptyString.

(** The loop over ["$@"] that sets [SKIP_BUILD]: true when [--skip-build]
    is among the arguments. *)
Definition skip_build (args : list string) : bool :=
  existsb (String.eqb "--skip-build") args.

(** scripts/deploy.sh *)
Definition deploy (args : list string) : Sh unit :=
  w <~ the_world ;;
  match env_file w with
  | None =>
      say (env_not_found w) ;;;
      say "  Copy .env.example → .env and fill in your values." ;;;
      exit 1%Z
  | Some assignments =>
      source assignments ;;;
      S3_BUCKET <~ required "S3_BUCKET" "S3_BUCKET is not set in .env" ;;
      AWS_REGION <~ required "AWS_REGION" "AWS_REGION is not set in .env" ;;
      CLOUDFRONT_DISTRIBUTION_ID <~
        required "CLOUDFRONT_DISTRIBUTION_ID"
                 "CLOUDFRONT_DISTRIBUTION_ID is not set in .env" ;;
      say "============================================================" ;;;
      say "  Portfolio Deployment" ;;;
      say ("  Bucket  : s3://" ++ S3_BUCKET) ;;;
      say ("  Region  : " ++ AWS_REGION) ;;;
      say ("  CF Dist : " ++ CLOUDFRONT_DISTRIBUTION_ID) ;;;
      say "============================================================" ;;;
      let SKIP_BUILD := skip_build args in
      (if negb SKIP_BUILD then
         say EmptyString ;;; say "▶ Step 1/3 — Building…" ;;; build
       else say "▶ Step 1/3 — Skipping build (--skip-build)") ;;;
      w' <~ the_world ;;
      if missing_or_empty (dist_dir w') then
        say dist_is_empty ;;; exit 1%Z
      else
        say EmptyString ;;;
        say "▶ Step 2/3 — Syncing to S3…" ;;;
        tool (s3_sync_html S3_BUCKET AWS_REGION) (sync_html_status w') ;;;
        tool (s3_sync_assets S3_BUCKET AWS_REGION) (sync_assets_status w') ;;;
        say "✓ S3 sync complete." ;;;
        say EmptyString ;;;
        say "▶ Step 3/3 — Invalidating CloudFront cache…" ;;;
        tool (create_invalidation CLOUDFRONT_DISTRIBUTION_ID)
             (fst (invalidation w')) ;;;
        let INVALIDATION_ID := snd (invalidation w') in
        say ("✓ Invalidation created: " ++ INVALIDATION_ID) ;;;
        say "  (CloudFront propagation takes ~30–60 seconds globally)" ;;;
        say EmptyString ;;;
        say "============================================================" ;;;
        say "  ✓ Deployment complete!" ;;;
        say EmptyString ;;;
        say "  CloudFront URL (check aws/setup.sh output or AWS console):" ;;;
        say "  https://<your-distribution>.cloudfront.net" ;;;
        say EmptyString ;;;
        say "  To watch the invalidation status:" ;;;
        say ("  aws cloudfront get-invalidation " ++ backslash) ;;;
        say ("    --distribution-id " ++ CLOUDFRONT_DISTRIBUTION_ID ++ " " ++ backslash) ;;;
        say ("    --id " ++ INVALIDATION_ID) ;;;
        say "============================================================"
  end.

(** A whole run: the exit status and what was done. *)
Definition run_deploy (args : list string) (w : world) : Z * list action :=
  match deploy args (mkShell w (environ w) []) with
  | (go _, sh) => (0%Z, trace sh)
  | (exited n, sh) => (n, trace sh)
  end.

(** The uploads among the actions of a run. *)
Definition is_upload (a : action) : bool :=
  match a with
  | s3_sync_html _ _ | s3_sync_assets _ _ => true
  | _ => false
  end.

Definition required_names : list string :=
  ["S3_BUCKET"; "AWS_REGION"; "CLOUDFRONT_DISTRIBUTION_ID"].

(** dist/ at the time deploy.sh tests it: as found when the build is
    skipped, as a successful build.sh leaves it otherwise. *)
Definition dist_at_check (args : list string) (w : world) : option (list string) :=
  if skip_build args then dist_dir w
  else Some (filter (fun n => negb (String.eqb n ".DS_Store")) (src_dir w)).

(** The message of the shell for a required variable that is not set. *)
Definition not_set (name : string) : action :=
  diagnostic (name ++ ": " ++ name ++ " is not set in .env").

(** The variable is unset or empty once [.env] has been sourced. *)
Definition unset (name : string) (w : world) (assignments : list (string * string)) : bool :=
  match lookup name (fold_left (fun vs a => a :: vs) assignments (environ w)) with
  | Some v => String.eqb v EmptyString
  | None => true
  end.

End Deploy.

(** ** initTyping *)

Module Typing.

(** ms to hold before deleting, per character typed, per character deleted. *)
Definition PAUSE_BETWEEN : Z := 1800.
Definition TYPE_SPEED : Z := 90.
Definition DELETE_SPEED : Z := 55.

(** The words of the source. *)
Definition words : list string := ["web"; "cloud"; "the future"]%string.

(** The two functions that the block hands to [setTimeout]: [tick], and the
    arrow function that ends the pause. *)
Inductive callback : Type := tick_cb | resume_cb.

(** The variables of the closure, the text of the element, the clock (ms) and
    the pending timeouts with the time at which each is due. *)
Record state : Type := mk {
  wordIdx : nat;
  charIdx : Z;
  deleting : bool;
  paused : bool;
  textContent : string;
  now : Z;
  timers : list (Z * callback)
}.

(** [s.slice(0, e)]: a negative [e] counts from the end, and the result
    stops at the end of [s].  A character of the string stands for one code
    unit. *)
Definition slice0 (s : string) (e : Z) : string :=
  let len := Z.of_nat (String.length s) in
  let e' := if (e <? 0)%Z then Z.max (len + e) 0 else Z.min e len in
  String.substring 0 (Z.to_nat e') s.

(** [setTimeout(f, delay)] *)
Definition setTimeout (f : callback) (delay : Z) (s : state) : state :=
  mk (wordIdx s) (charIdx s) (deleting s) (paused s) (textContent s) (now s)
     (timers s ++ [((now s + delay)%Z, f)]).

Section Words.

(** The list of words, [words] in the source. *)
Variable ws : list string.

(** [tick()].  When [ws[wordIdx]] is undefined the call stops on a
    TypeError at [current.slice], after [charIdx] was changed. *)
Definition tick (s : state) : state :=
  if deleting s then
    let c := (charIdx s - 1)%Z in
    match nth_error ws (wordIdx s) with
    | None => mk (wordIdx s) c (deleting s) (paused s) (textContent s) (now s) (timers s)
    | Some current =>
        if (c =? 0)%Z then
          setTimeout tick_cb 400
            (mk (Nat.modulo (wordIdx s + 1) (length ws)) c false (paused s)
                (slice0 current c) (now s) (timers s))
        else
          setTimeout tick_cb DELETE_SPEED
            (mk (wordIdx s) c (deleting s) (paused s) (slice0 current c) (now s) (timers s))
    end
  else
    let c := (charIdx s + 1)%Z in
    match nth_error ws (wordIdx s) with
    | None => mk (wordIdx s) c (deleting s) (paused s) (textContent s) (now s) (timers s)
    | Some current =>
        if (c =? Z.of_nat (String.length current))%Z then
          if negb (paused s) then
            setTimeout resume_cb PAUSE_BETWEEN
              (mk (wordIdx s) c (deleting s) true (slice0 current c) (now s) (timers s))
          else
            mk (wordIdx s) c (deleting s) (paused s) (slice0 current c) (now s) (timers s)
        else
          setTimeout tick_cb TYPE_SPEED
            (mk (wordIdx s) c (deleting s) (paused s) (slice0 current c) (now s) (timers s))
    end.

(** [() => { paused = false; deleting = true; tick(); }] *)
Definition resume (s : state) : state :=
  tick (mk (wordIdx s) (charIdx s) true false (textContent s) (now s) (timers s)).

Definition call (f : callback) (s : state) : state :=
  match f with
  | tick_cb => tick s
  | resume_cb => resume s
  end.

(** The timeout that the host runs next: the one due first, the one set
    first among those due at the same time; with the other timeouts. *)
Fixpoint next_timer (ts : list (Z * callback)) : option ((Z * callback) * list (Z * callback)) :=
  match ts with
  | [] => None
  | t :: ts' =>
      match next_timer ts' with
      | None => Some (t, [])
      | Some (u, rest) =>
          if (fst t <=? fst u)%Z then Some (t, ts') else Some (u, t :: rest)
      end
  end.

(** The host runs the next timeout when it is due. *)
Definition fire (s : state) : state :=
  match next_timer (timers s) with
  | None => s
  | Some ((due, f), rest) =>
      call f (mk (wordIdx s) (charIdx s) (deleting s) (paused s) (textContent s) due rest)
  end.

End Words.

(** The block when the element exists, showing [text] at first:
    [setTimeout(tick, 1400)]. *)
Definition initTyping (text : string) : state :=
  mk 0 0 false false text 0 [(1400%Z, tick_cb)].

End Typing.

(** ** initNav *)

Module Nav.

(** What [updateActiveLink] reads of a [main section[id]] element. *)
Record section : Type := mk_section {
  id : string;
  offsetTop : Q
}.

(** [window.scrollY + window.innerHeight * 0.4] *)
Definition scrollMid (scrollY innerHeight : Q) : Q :=
  scrollY + innerHeight * (4 # 10).

(** [current] after the [forEach] over the sections; [None] is the
    undefined [sections[0]] of an empty list. *)
Definition current (sections : list section) (scrollY innerHeight : Q) : option section :=
  fold_left
    (fun cur sec =>
       if Qle_bool (offsetTop sec) (scrollMid scrollY innerHeight) then Some sec else cur)
    sections (hd_error sections).

(** [href.slice(1)] *)
Definition slice1 (href : string) : string :=
  match href with
  | EmptyString => EmptyString
  | String _ rest => rest
  end.

(** [target === current?.id] *)
Definition is_target (cur : option section) (href : string) : bool :=
  match cur with
  | None => false
  | Some c => String.eqb (slice1 href) (id c)
  end.

(** [updateActiveLink()]: for each link, given by its [href], whether it has
    the class [active] afterwards. *)
Definition updateActiveLink (sections : list section) (links : list string)
    (scrollY innerHeight : Q) : list bool :=
  map (is_target (current sections scrollY innerHeight)) links.

(** [updateNavStyle()]: whether the bar has the class [scrolled] afterwards. *)
Definition updateNavStyle (scrollY : Q) : bool := Qltb 24 scrollY.

End Nav.

(** ** initContactForm *)

Module Form.

(** A JavaScript string: the list of its UTF-16 code units. *)
Definition jsstring : Type := list N.

(** The code units of a string of characters below 256. *)
Definition units (s : string) : jsstring :=
  map Ascii.N_of_ascii (list_ascii_of_string s).

(** White space and line terminators: what [trim] removes and what [\s]
    matches. *)
Definition is_space (c : N) : bool :=
  existsb (N.eqb c)
    [9; 10; 11; 12; 13; 32; 160; 5760; 8232; 8233; 8239; 8287; 12288; 65279]%N
  || ((8192 <=? c)%N && (c <=? 8202)%N).

Fixpoint trimStart (s : jsstring) : jsstring :=
  match s with
  | [] => []
  | c :: s' => if is_space c then trimStart s' else s
  end.

(** [String.prototype.trim] *)
Definition trim (s : jsstring) : jsstring := rev (trimStart (rev (trimStart s))).

(** Regular expressions over code units, as far as the pattern of the
    source needs them. *)
Inductive regex : Type :=
| Never
| Empty
| Class (p : N -> bool)
| Cat (r1 r2 : regex)
| Or (r1 r2 : regex)
| Star (r : regex).

(** [r+] *)
Definition Plus (r : regex) : regex := Cat r (Star r).

Fixpoint nullable (r : regex) : bool :=
  match r with
  | Never => false
  | Empty => true
  | Class _ => false
  | Cat r1 r2 => nullable r1 && nullable r2
  | Or r1 r2 => nullable r1 || nullable r2
  | Star _ => true
  end.

(** What is left of [r] to match once [c] has been read. *)
Fixpoint after (c : N) (r : regex) : regex :=
  match r with
  | Never => Never
  | Empty => Never
  | Class p => if p c then Empty else Never
  | Cat r1 r2 =>
      if nullable r1 then Or (Cat (after c r1) r2) (after c r2)
      else Cat (after c r1) r2
  | Or r1 r2 => Or (after c r1) (after c r2)
  | Star r1 => Cat (after c r1) (Star r1)
  end.

(** [/^r$/.test(s)] *)
Definition test (r : regex) (s : jsstring) : bool :=
  nullable (fold_left (fun r c => after c r) s r).

(** [[^\s@]] *)
Definition not_space_at (c : N) : bool := negb (is_space c || N.eqb c 64).

(** [/^[^\s@]+@[^\s@]+\.[^\s@]+$/] *)
Definition email_pattern : regex :=
  Cat (Plus (Class not_space_at))
      (Cat (Class (N.eqb 64))
           (Cat (Plus (Class not_space_at))
                (Cat (Class (N.eqb 46)) (Plus (Class not_space_at))))).

(** What the submit listener decides. *)
Inductive verdict : Type :=
| rejected (message : string)
| accepted.

(** [!v] for the value of [querySelector(...)?.value.trim()], [None] being
    undefined. *)
Definition falsy (v : option jsstring) : bool :=
  match v with
  | None => true
  | Some [] => true
  | Some (_ :: _) => false
  end.

(** The checks of the submit listener on the values of the three fields,
    [None] for a field that is not in the form. *)
Definition validate (name email message : option jsstring) : verdict :=
  let name := option_map trim name in
  let email := option_map trim email in
  let message := option_map trim message in
  if falsy name || falsy email || falsy message then
    rejected "Please fill in all fields."
  else if negb (test email_pattern (match email with Some e => e | None => [] end)) then
    rejected "Please enter a valid email address."
  else accepted.

End Form.

(** * Vocabulary of the properties *)

(** [n] calls of [move] on one particle, the field keeping its size. *)
Definition moves (n : nat) (width height : Q) (p : Particle.state) : Particle.state :=
  Nat.iter n (Particle.move width height) p.

(** The position lies in the field widened by the margin of 10 on each
    side, both ends included. *)
Definition wrapped (width height : Q) (p : Particle.state) : Prop :=
  (-10 # 1) <= Particle.x p /\ Particle.x p <= width + 10 /\
  (-10 # 1) <= Particle.y p /\ Particle.y p <= height + 10.

(** The same with the far ends excluded. *)
Definition wrapped_half_open (width height : Q) (p : Particle.state) : Prop :=
  (-10 # 1) <= Particle.x p /\ Particle.x p < width + 10 /\
  (-10 # 1) <= Particle.y p /\ Particle.y p < height + 10.

(** The ranges of the velocity, the radius and the colour factor of a new
    particle. *)
Definition fresh_attributes (p : Particle.state) : Prop :=
  -(225 # 1000) <= Particle.vx p /\ Particle.vx p <= 225 # 1000 /\
  -(225 # 1000) <= Particle.vy p /\ Particle.vy p <= 225 # 1000 /\
  8 # 10 <= Particle.r p /\ Particle.r p < 26 # 10 /\
  0 <= Particle.t p /\ Particle.t p < 1.

(** The position of a new particle lies in [[0, width) x [0, height)]. *)
Definition fresh_position (width height : Q) (p : Particle.state) : Prop :=
  0 <= Particle.x p /\ Particle.x p < width /\
  0 <= Particle.y p /\ Particle.y p < height.

(** What [move] leaves alone. *)
Definition fixed_part (p : Particle.state) : Q * Q * Q * Q :=
  (Particle.vx p, Particle.vy p, Particle.r p, Particle.t p).

(** The stream whose draws are all [q]. *)
Definition constant_draws (q : Q) : rng := mkRng (fun _ => q) 0.

(** A stand-in for [Math.sqrt] in the examples: exact on the squares of
    the integers. *)
Definition sqrt_floor (q : Q) : Q := inject_Z (Z.sqrt (Qfloor q)).

(** The distance that [drawLines] computes for a pair. *)
Definition distance (Math_sqrt : Q -> Q) (pi pj : Particle.state) : Q :=
  let dx := Particle.x pi - Particle.x pj in
  let dy := Particle.y pi - Particle.y pj in
  Math_sqrt (dx * dx + dy * dy).

(** The stroke alpha of a line between particles at distance [d], as the
    specification writes it. *)
Definition line_alpha (d : Q) : Q := (1 - d / 160) * (18 # 100).

(** The alpha with which an operation paints. *)
Definition alpha_of (o : op) : Q :=
  match o with
  | clearRect _ _ _ _ => 0
  | fillArc _ _ _ _ a => a
  | strokeLine _ _ _ _ _ a _ => a
  end.

(** The particle count that the width of the window would give now. *)
Definition count_follows_width (s : canvas) : Prop :=
  Z.of_nat (length (particles s)) = particle_count (window s).

(** The event makes the resize listener rebuild the particle set. *)
Definition rebuilds (s : canvas) (e : event) : bool :=
  match e with
  | Resize _ now => (200 <=? now - last s)%Z
  | _ => false
  end.

(** No event of [es], played from [s], rebuilds the particle set. *)
Fixpoint keeps_set (Math_sqrt : Q -> Q) (s : canvas) (es : list event) : Prop :=
  match es with
  | [] => True
  | e :: es' => rebuilds s e = false /\ keeps_set Math_sqrt (step Math_sqrt s e) es'
  end.

(** The visibility events of [es] report a change each time, [h] being the
    value of [document.hidden] before them. *)
Fixpoint alternating (h : bool) (es : list event) : Prop :=
  match es with
  | [] => True
  | VisibilityChange h' :: es' => h' = negb h /\ alternating h' es'
  | _ :: es' => alternating h es'
  end.

(** [es] has no visibility event. *)
Definition no_visibility (es : list event) : Prop :=
  Forall (fun e => match e with VisibilityChange _ => False | _ => True end) es.

(** The number of frames drawn on a context: each one starts with the one
    [clearRect] of [frame]. *)
Definition frames_drawn (log : list op) : nat :=
  length (filter (fun o => match o with clearRect _ _ _ _ => true | _ => false end) log).

(** Every run of the throttled callback comes at or after the last call of
    the burst, as a throttle that fires on the trailing edge would have it. *)
Definition trailing_edge (limit last : Z) (nows : list Z) : Prop :=
  forall t : Z, In t (fire_times limit last nows) ->
    Forall (fun now => (now <= t)%Z) nows.

(** The runs of the throttled callback, by recursion on the calls. *)
Fixpoint fires (limit last : Z) (nows : list Z) : list Z :=
  match nows with
  | [] => []
  | now :: nows' =>
      if (limit <=? now - last)%Z then now :: fires limit now nows'
      else fires limit last nows'
  end.

(** The particle set has the size fixed by the constant [c]. *)
Definition sized (c : Z) (s : canvas) : Prop :=
  PARTICLE_COUNT s = c /\ length (particles s) = Z.to_nat c.

(** One request is pending while the page is visible, none while it is
    hidden, and [animId] is the pending one. *)
Definition gated (s : canvas) : Prop :=
  if hidden s then callbacks s = []
  else exists a : nat, callbacks s = [a] /\ animId s = Some a.

(** A window [w] px wide with a canvas as wide and 600 px high, at pixel
    ratio 1. *)
Definition window_of_width (w : Q) : viewport := mkViewport w w 600 1.

(** A particle at rest at [(x, y)]. *)
Definition at_xy (x y : Q) : Particle.state := Particle.mk x y 0 0 1 0.

(** A world in which every external tool succeeds. *)
Definition calm_world (env : option (list (string * string)))
    (src : list string) (dist : option (list string)) : Deploy.world :=
  Deploy.mkWorld "/site" env [] src dist 0 0 0 (0%Z, "I2ABC"%string).

(** A [.env] that sets the three required variables. *)
Definition full_env : list (string * string) :=
  [("S3_BUCKET", "my-bucket"); ("AWS_REGION", "eu-west-1");
   ("CLOUDFRONT_DISTRIBUTION_ID", "E123")]%string.

(** The resize events of [es] bring canvas sizes that are not negative. *)
Definition sizes_ok (es : list event) : Prop :=
  Forall (fun e => match e with
                   | Resize v _ => 0 <= offsetWidth v /\ 0 <= offsetHeight v
                   | _ => True
                   end) es.

(** The draws are in [[0, 1)], the field has a size, and every particle is
    inside the field widened by the margin. *)
Definition field_wrapped (s : canvas) : Prop :=
  unit_draws (random s) /\ 0 <= width s /\ 0 <= height s /\
  Forall (wrapped (width s) (height s)) (particles s).

(** A field of 200 by 200 with two particles at rest 80 px apart, nothing
    drawn yet. *)
Definition two_at_rest : canvas :=
  mkCanvas 2 200 200 [at_xy 0 0; at_xy 48 64] None 0 (window_of_width 200) false
           (200, 200, 1) [] 1%nat (constant_draws 0) [].

(** ** Vocabulary of the further properties *)

(** [l1] is [l2] with some elements left out. *)
Inductive sublist {A : Type} : list A -> list A -> Prop :=
| sublist_nil : sublist [] []
| sublist_skip (a : A) (l1 l2 : list A) : sublist l1 l2 -> sublist l1 (a :: l2)
| sublist_keep (a : A) (l1 l2 : list A) : sublist l1 l2 -> sublist (a :: l1) (a :: l2).

(** The [last] of the closure of [throttle] after the calls at [nows]. *)
Fixpoint last_after (limit last : Z) (nows : list Z) : Z :=
  match nows with
  | [] => last
  | now :: nows' =>
      if (limit <=? now - last)%Z then last_after limit now nows'
      else last_after limit last nows'
  end.

(** The number of events of [es] that, played from [s], rebuild the set. *)
Fixpoint rebuilds_in (Math_sqrt : Q -> Q) (s : canvas) (es : list event) : nat :=
  match es with
  | [] => O
  | e :: es' =>
      ((if rebuilds s e then 1 else 0) + rebuilds_in Math_sqrt (step Math_sqrt s e) es')%nat
  end.

(** A colour between ACCENT and CYAN on each channel. *)
Definition blend (c : RGB.color) : Prop :=
  (34 <= RGB.r c <= 124)%Z /\ (109 <= RGB.g c <= 211)%Z /\ (238 <= RGB.b c <= 250)%Z.

(** An operation within the limits of the animation: a clear from the
    origin; a circle of radius in [[0.8, 2.6)] at alpha 0.65; a line 0.8 wide
    at an alpha in [(0, 0.18]]; circles and lines in a blend of the two
    colours. *)
Definition op_in_limits (o : op) : Prop :=
  match o with
  | clearRect x y _ _ => x = 0 /\ y = 0
  | fillArc _ _ radius c alpha =>
      8 # 10 <= radius /\ radius < 26 # 10 /\ blend c /\ alpha = 65 # 100
  | strokeLine _ _ _ _ c alpha lineWidth =>
      0 < alpha /\ alpha <= 18 # 100 /\ blend c /\ lineWidth = 8 # 10
  end.

(** The draws are in [[0, 1)], the particles have the attributes of new
    particles and all that was drawn is within the limits. *)
Definition field_fresh (s : canvas) : Prop :=
  unit_draws (random s) /\ Forall fresh_attributes (particles s) /\
  Forall op_in_limits (ctx s).

(** The random source of [s] is [g] advanced by [k] draws. *)
Definition advanced (g : rng) (k : nat) (s : canvas) : Prop :=
  draws (random s) = draws g /\ cursor (random s) = (cursor g + k)%nat.

(** The part of the state that the frame requests live in. *)
Definition requests (s : canvas) : bool * list nat * nat * option nat :=
  (hidden s, callbacks s, next_handle s, animId s).

(** The pending frame requests are handles already given out; one or two are
    pending while the page is visible, [animId] being the last; at most one is
    pending while the page is hidden. *)
Definition loops (s : canvas) : Prop :=
  Forall (fun a => (a < next_handle s)%nat) (callbacks s) /\
  if hidden s then (length (callbacks s) <= 1)%nat
  else (exists a, callbacks s = [a] /\ animId s = Some a) \/
       (exists a b, a <> b /\ callbacks s = [a; b] /\ animId s = Some b).

(** The calls of the [aws] tool among the actions of a run. *)
Definition is_aws (a : Deploy.action) : bool :=
  match a with
  | Deploy.s3_sync_html _ _ | Deploy.s3_sync_assets _ _
  | Deploy.create_invalidation _ => true
  | _ => false
  end.

(** The value of a variable once [.env] has been sourced. *)
Definition resolved (name : string) (w : Deploy.world)
    (assignments : list (string * string)) : option string :=
  Deploy.lookup name (fold_left (fun vs a => a :: vs) assignments (Deploy.environ w)).

(** dist/ as a run of deploy.sh leaves it. *)
Definition dist_after_deploy (args : list string) (w : Deploy.world) : option (list string) :=
  Deploy.dist_dir
    (Deploy.fs (snd (Deploy.deploy args (Deploy.mkShell w (Deploy.environ w) [])))).

(** The three variables are set, to [b], [r] and [d]. *)
Definition configured (w : Deploy.world) (assignments : list (string * string))
    (b r d : string) : Prop :=
  resolved "S3_BUCKET" w assignments = Some b /\ b <> EmptyString /\
  resolved "AWS_REGION" w assignments = Some r /\ r <> EmptyString /\
  resolved "CLOUDFRONT_DISTRIBUTION_ID" w assignments = Some d /\ d <> EmptyString.

(** A world in which the second upload fails with status 255. *)
Definition assets_fail_world : Deploy.world :=
  Deploy.mkWorld "/site" (Some full_env) [] ["index.html"; ".DS_Store"]%string
                 (Some ["old.html"]%string) 0 0 255 (0%Z, "I2ABC"%string).

(** ** The typing effect *)

(** [n] timeouts run one after the other. *)
Definition fires_of (ws : list string) (n : nat) (s : Typing.state) : Typing.state :=
  Nat.iter n (Typing.fire ws) s.

(** The effect is about to type the first character of word [i], at [due]. *)
Definition at_word_start (s : Typing.state) (i : nat) (due : Z) : Prop :=
  Typing.wordIdx s = i /\ Typing.charIdx s = 0%Z /\ Typing.deleting s = false /\
  Typing.paused s = false /\ Typing.timers s = [(due, Typing.tick_cb)].


(** The effect is typing, holding or deleting word [w], with one timeout
    pending, due at [due]. *)
Definition typing_phase (w : string) (due : Z) (s : Typing.state) : Prop :=
  let len := Z.of_nat (String.length w) in
  (Typing.deleting s = false /\ Typing.paused s = false /\
   (0 <= Typing.charIdx s < len)%Z /\ Typing.timers s = [(due, Typing.tick_cb)]) \/
  (Typing.deleting s = false /\ Typing.paused s = true /\
   Typing.charIdx s = len /\ Typing.timers s = [(due, Typing.resume_cb)]) \/
  (Typing.deleting s = true /\ Typing.paused s = false /\
   (1 <= Typing.charIdx s < len)%Z /\ Typing.timers s = [(due, Typing.tick_cb)]).

(** The invariant of the effect; [started] tells whether a timeout has run. *)
Definition typing_ok (ws : list string) (started : bool) (s : Typing.state) : Prop :=
  exists w due,
    nth_error ws (Typing.wordIdx s) = Some w /\
    typing_phase w due s /\ (Typing.now s <= due)%Z /\
    (started = true -> Typing.textContent s = Typing.slice0 w (Typing.charIdx s)).

(** The state after [k] characters of [w] have been typed. *)
Definition typed (w : string) (i : nat) (due : Z) (k : nat) : Typing.state :=
  let len := String.length w in
  Typing.mk i (Z.of_nat k) false (Nat.eqb k len) (Typing.slice0 w (Z.of_nat k))
    (due + 90 * (Z.of_nat k - 1))%Z
    [if Nat.eqb k len
     then ((due + 90 * (Z.of_nat k - 1) + 1800)%Z, Typing.resume_cb)
     else ((due + 90 * Z.of_nat k)%Z, Typing.tick_cb)].

(** The state after the pause and [k] deletions, [t] being the time at which
    the pause ends. *)
Definition deleted (ws : list string) (w : string) (i : nat) (t : Z) (k : nat)
  : Typing.state :=
  let len := String.length w in
  if Nat.eqb k len then
    Typing.mk (Nat.modulo (i + 1) (length ws)) 0 false false
      (Typing.slice0 w 0) (t + 55 * (Z.of_nat k - 1))%Z
      [((t + 55 * (Z.of_nat k - 1) + 400)%Z, Typing.tick_cb)]
  else
    Typing.mk i (Z.of_nat len - Z.of_nat k) true false
      (Typing.slice0 w (Z.of_nat len - Z.of_nat k)) (t + 55 * (Z.of_nat k - 1))%Z
      [((t + 55 * Z.of_nat k)%Z, Typing.tick_cb)].

(** ** The navigation bar *)

(** The sections come in the order of their offsets, as they do down a page. *)
Definition in_page_order (sections : list Nav.section) : Prop :=
  StronglySorted (fun a b => Nav.offsetTop a <= Nav.offsetTop b) sections.

(** [sections[k]] is the section in which the line at [mid] lies: it starts
    at or above [mid], and the next one, when there is one, starts below. *)
Definition holds_line (sections : list Nav.section) (mid : Q) (k : nat) : Prop :=
  (exists c, nth_error sections k = Some c /\ Nav.offsetTop c <= mid) /\
  (forall c, nth_error sections (S k) = Some c -> mid < Nav.offsetTop c).

(** A page of three sections, its links, and a window of height 800 scrolled
    by 500. *)
Definition page_sections : list Nav.section :=
  [Nav.mk_section "home" 0; Nav.mk_section "about" 600; Nav.mk_section "contact" 1400].
Definition page_links : list string := ["#home"; "#about"; "#contact"]%string.

(** ** The contact form *)

(** [s] is in the language of [r]. *)
Inductive matches : Form.regex -> Form.jsstring -> Prop :=
| matches_empty : matches Form.Empty []
| matches_class (p : N -> bool) (c : N) : p c = true -> matches (Form.Class p) [c]
| matches_cat (r1 r2 : Form.regex) (s1 s2 : Form.jsstring) :
    matches r1 s1 -> matches r2 s2 -> matches (Form.Cat r1 r2) (s1 ++ s2)
| matches_or_l (r1 r2 : Form.regex) (s : Form.jsstring) :
    matches r1 s -> matches (Form.Or r1 r2) s
| matches_or_r (r1 r2 : Form.regex) (s : Form.jsstring) :
    matches r2 s -> matches (Form.Or r1 r2) s
| matches_star_nil (r : Form.regex) : matches (Form.Star r) []
| matches_star_cons (r : Form.regex) (s1 s2 : Form.jsstring) :
    matches r s1 -> matches (Form.Star r) s2 -> matches (Form.Star r) (s1 ++ s2).

(** An address as the pattern sees it: a local part, [@], a domain and,
    after a dot, an ending, the three parts not empty and free of white space
    and of [@]. *)
Definition address_shaped (s : Form.jsstring) : Prop :=
  exists a b c : Form.jsstring,
    s = a ++ [64%N] ++ b ++ [46%N] ++ c /\
    a <> [] /\ b <> [] /\ c <> [] /\
    forallb Form.not_space_at a = true /\
    forallb Form.not_space_at b = true /\
    forallb Form.not_space_at c = true.

(** Nothing but white space. *)
Definition blank (s : Form.jsstring) : Prop := forallb Form.is_space s = true.

(** A field as the listener wants it: in the form, and not blank. *)
Definition filled (v : option Form.jsstring) : Prop :=
  exists s, v = Some s /\ ~ blank s.

(** An address with white space around it. *)
Definition address_within (v : option Form.jsstring) : Prop :=
  exists a core b,
    v = Some (a ++ core ++ b) /\ blank a /\ blank b /\ address_shaped core.

(** * Properties *)

(** ** Numbers *)

Lemma Qltb_lt (a b : Q) : Qltb a b = true <-> a < b.
Proof.
  unfold Qltb. rewrite negb_true_iff.
  split.
  - intros H. apply Qnot_le_lt. intros Hle.
    apply Qle_bool_iff in Hle. congruence.
  - intros H. destruct (Qle_bool b a) eqn:E; [|reflexivity].
    apply Qle_bool_iff in E. exfalso. apply (Qlt_not_le _ _ H E).
Qed.

Lemma Qltb_ge (a b : Q) : Qltb a b = false <-> b <= a.
Proof.
  unfold Qltb. rewrite negb_false_iff. apply Qle_bool_iff.
Qed.

(** [Math.round a] is the integer [n] with [n - 1/2 <= a < n + 1/2]. *)
Lemma Math_round_spec (a : Q) :
  inject_Z (Math_round a) - (1 # 2) <= a /\ a < inject_Z (Math_round a) + (1 # 2).
Proof.
  unfold Math_round.
  pose proof (Qfloor_le (a + (1 # 2))) as Hlo.
  pose proof (Qlt_floor (a + (1 # 2))) as Hhi.
  rewrite inject_Z_plus in Hhi. change (inject_Z 1) with 1 in Hhi.
  split; lra.
Qed.

Lemma Math_round_mono (a b : Q) : a <= b -> (Math_round a <= Math_round b)%Z.
Proof.
  intros H. unfold Math_round. apply Qfloor_resp_le. lra.
Qed.

(** ** Particle.reset *)

(** The fields of a reset particle, draw by draw. *)
Lemma reset_fields (i : option bool) (width height : Q) (g : rng) :
  Particle.reset i width height g =
  (Particle.mk (draws g (cursor g) * width)
               (draws g (S (cursor g)) * height)
               ((draws g (2 + cursor g)%nat - (1 # 2)) * (45 # 100))
               ((draws g (3 + cursor g)%nat - (1 # 2)) * (45 # 100))
               (draws g (4 + cursor g)%nat * (18 # 10) + (8 # 10))
               (draws g (5 + cursor g)%nat),
   mkRng (draws g) (6 + cursor g)).
Proof. destruct i as [[|]|]; reflexivity. Qed.

(** C10: the [initial] parameter of [reset] has no effect.  On the same
    draws, [reset(true)] and [reset(false)] give the same six fields and leave
    the random source in the same place, and the constructor's [reset(true)]
    is a plain [reset()]. *)
Theorem reset_ignores_initial (width height : Q) (g : rng) :
  Particle.reset (Some true) width height g = Particle.reset (Some false) width height g /\
  Particle.new width height g = Particle.reset None width height g.
Proof. split; reflexivity. Qed.

(** C7: for draws in [[0, 1)] and a field of positive width and height, a
    new particle has its position in [[0, width) x [0, height)], its velocity
    on each axis in [[-0.225, 0.225]], computed as [(rand() - 0.5) * 0.45],
    its radius in [[0.8, 2.6)] and its colour factor in [[0, 1)]. *)
Theorem reset_ranges (i : option bool) (width height : Q) (g : rng) :
  unit_draws g -> 0 < width -> 0 < height ->
  let p := fst (Particle.reset i width height g) in
  fresh_position width height p /\
  fresh_attributes p /\
  Particle.vx p = (draws g (2 + cursor g)%nat - (1 # 2)) * (45 # 100) /\
  Particle.vy p = (draws g (3 + cursor g)%nat - (1 # 2)) * (45 # 100).
Proof.
  intros Hg Hw Hh p. subst p. rewrite reset_fields.
  unfold fresh_position, fresh_attributes. simpl.
  pose proof (Hg (cursor g)) as [H0 H0'].
  pose proof (Hg (S (cursor g))) as [H1 H1'].
  pose proof (Hg (S (S (cursor g)))) as [H2 H2'].
  pose proof (Hg (S (S (S (cursor g))))) as [H3 H3'].
  pose proof (Hg (S (S (S (S (cursor g)))))) as [H4 H4'].
  pose proof (Hg (S (S (S (S (S (cursor g))))))) as [H5 H5'].
  repeat split; try reflexivity; try lra; try nra.
Qed.

Lemma reset_ranges_witness :
  fresh_position 100 50 (fst (Particle.reset None 100 50 (constant_draws (1 # 2)))) /\
  fresh_attributes (fst (Particle.reset None 100 50 (constant_draws (1 # 2)))).
Proof.
  destruct (reset_ranges None 100 50 (constant_draws (1 # 2))) as (Hp & Ha & _).
  - intros n. simpl. lra.
  - lra.
  - lra.
  - split; [exact Hp | exact Ha].
Defined.

Example new_particle_at_half :
  fst (Particle.new 100 50 (constant_draws (1 # 2))) =
  Particle.mk ((1 # 2) * 100) ((1 # 2) * 50)
              (((1 # 2) - (1 # 2)) * (45 # 100)) (((1 # 2) - (1 # 2)) * (45 # 100))
              ((1 # 2) * (18 # 10) + (8 # 10)) (1 # 2).
Proof. reflexivity. Qed.

(** ** Particle.move *)

(** One call of [move] puts any particle inside the widened field. *)
Lemma move_wrapped (width height : Q) (p : Particle.state) :
  -(20 # 1) <= width -> -(20 # 1) <= height ->
  wrapped width height (Particle.move width height p).
Proof.
  intros Hw Hh. unfold wrapped, Particle.move. simpl.
  destruct (Qltb (Particle.x p + Particle.vx p) (-10 # 1)) eqn:Ex1;
  destruct (Qltb (Particle.y p + Particle.vy p) (-10 # 1)) eqn:Ey1.
  all: repeat match goal with
       | |- context [Qltb ?a ?b] => let E := fresh "E" in destruct (Qltb a b) eqn:E
       end.
  all: repeat match goal with
       | H : Qltb _ _ = true |- _ => apply Qltb_lt in H
       | H : Qltb _ _ = false |- _ => apply Qltb_ge in H
       end.
  all: repeat split; lra.
Qed.

(** A new particle is inside the field. *)
Lemma new_wrapped (width height : Q) (g : rng) :
  unit_draws g -> 0 <= width -> 0 <= height ->
  wrapped width height (fst (Particle.new width height g)).
Proof.
  intros Hg Hw Hh. unfold Particle.new. rewrite reset_fields.
  unfold wrapped. simpl.
  destruct (Hg (cursor g)) as [H0 H0'].
  destruct (Hg (S (cursor g))) as [H1 H1'].
  repeat split; nra.
Qed.

(** ** interpolateColor *)

Lemma lerp_mono (a b t1 t2 : Q) : a <= b -> t1 <= t2 -> lerp a b t1 <= lerp a b t2.
Proof. unfold lerp. intros Hab Ht. nra. Qed.

Lemma lerp_anti (a b t1 t2 : Q) : b <= a -> t1 <= t2 -> lerp a b t2 <= lerp a b t1.
Proof. unfold lerp. intros Hab Ht. nra. Qed.

(** C4: for [t] in [[0, 1]] each channel of the interpolated colour is
    [round(accent + (cyan - accent) * t)], that is the integer within one half
    of the blend; each channel is monotonic in [t] (red and blue go down from
    ACCENT to CYAN, green goes up); the colour is ACCENT at [t = 0] and CYAN
    at [t = 1]. *)
Theorem interpolateColor_lerp (t1 t2 : Q) :
  0 <= t1 -> t1 <= t2 -> t2 <= 1 ->
  interpolateColor t1 =
    RGB.mk (Math_round (124 + (34 - 124) * t1))
           (Math_round (109 + (211 - 109) * t1))
           (Math_round (250 + (238 - 250) * t1)) /\
  (inject_Z (RGB.r (interpolateColor t1)) - (1 # 2) <= 124 + (34 - 124) * t1
     < inject_Z (RGB.r (interpolateColor t1)) + (1 # 2)) /\
  (inject_Z (RGB.g (interpolateColor t1)) - (1 # 2) <= 109 + (211 - 109) * t1
     < inject_Z (RGB.g (interpolateColor t1)) + (1 # 2)) /\
  (inject_Z (RGB.b (interpolateColor t1)) - (1 # 2) <= 250 + (238 - 250) * t1
     < inject_Z (RGB.b (interpolateColor t1)) + (1 # 2)) /\
  (RGB.r (interpolateColor t2) <= RGB.r (interpolateColor t1))%Z /\
  (RGB.g (interpolateColor t1) <= RGB.g (interpolateColor t2))%Z /\
  (RGB.b (interpolateColor t2) <= RGB.b (interpolateColor t1))%Z /\
  interpolateColor 0 = ACCENT /\
  interpolateColor 1 = CYAN.
Proof.
  intros H0 H12 H1.
  split; [reflexivity|].
  split; [apply (Math_round_spec (lerp 124 34 t1))|].
  split; [apply (Math_round_spec (lerp 109 211 t1))|].
  split; [apply (Math_round_spec (lerp 250 238 t1))|].
  split; [apply Math_round_mono, lerp_anti; [apply Qle_bool_iff; reflexivity | exact H12]|].
  split; [apply Math_round_mono, lerp_mono; [apply Qle_bool_iff; reflexivity | exact H12]|].
  split; [apply Math_round_mono, lerp_anti; [apply Qle_bool_iff; reflexivity | exact H12]|].
  split; reflexivity.
Qed.

Lemma interpolateColor_lerp_witness :
  (RGB.r (interpolateColor (3 # 4)) <= RGB.r (interpolateColor (1 # 4)))%Z.
Proof.
  apply (interpolateColor_lerp (1 # 4) (3 # 4)); lra.
Defined.

Example interpolateColor_half : interpolateColor (1 # 2) = RGB.mk 79 160 244.
Proof. reflexivity. Qed.

(** ** throttle *)

Lemma throttle_calls_fires (limit : Z) (nows : list Z) (last : Z) (log : list Z) :
  snd (throttle_calls note_time limit (map (fun n => (n, n)) nows) (last, log)) =
  log ++ fires limit last nows.
Proof.
  unfold throttle_calls.
  revert last log. induction nows as [|now nows IH]; intros last log.
  - simpl. rewrite app_nil_r. reflexivity.
  - cbn [map fold_left fst snd throttle fires].
    destruct (limit <=? now - last)%Z; rewrite IH.
    + unfold note_time. rewrite <- app_assoc. reflexivity.
    + reflexivity.
Qed.

Lemma fire_times_fires (limit last : Z) (nows : list Z) :
  fire_times limit last nows = fires limit last nows.
Proof. unfold fire_times. apply throttle_calls_fires. Qed.

(** Each run comes at least [limit] after the previous one. *)
Lemma fires_spaced (limit : Z) (nows : list Z) :
  (0 <= limit)%Z ->
  forall last : Z,
    Forall (fun t => (last + limit <= t)%Z) (fires limit last nows) /\
    StronglySorted (fun a b => (a + limit <= b)%Z) (fires limit last nows).
Proof.
  intros Hl. induction nows as [|now nows IH]; intros last; simpl.
  - split; constructor.
  - destruct (limit <=? now - last)%Z eqn:E.
    + apply Z.leb_le in E. destruct (IH now) as [Hf Hs]. split.
      * constructor; [lia|].
        eapply Forall_impl; [|exact Hf]. simpl. intros t Ht. lia.
      * constructor; assumption.
    + apply IH.
Qed.

(** C5, as the code has it: the resize listener is throttled on the leading
    edge.  Of two resize events less than 200 ms apart, the first of which
    comes at least 200 ms after the last rebuild, the first rebuilds the
    particle set at once and the second is dropped: exactly one rebuild.  Any
    two rebuilds are at least 200 ms apart.  A resize event rebuilds exactly
    when 200 ms have passed since the last rebuild, and no rebuild is left for
    later. *)
Theorem resize_throttle_leading_edge (Math_sqrt : Q -> Q) (last0 t1 t2 : Z) :
  (200 <= t1 - last0)%Z -> (t1 <= t2)%Z -> (t2 < t1 + 200)%Z ->
  fire_times 200 last0 [t1; t2] = [t1] /\
  (forall (l : Z) (nows : list Z),
     StronglySorted (fun a b => (a + 200 <= b)%Z) (fire_times 200 l nows)) /\
  (forall (s : canvas) (v : viewport) (now : Z),
     step Math_sqrt s (Resize v now) =
     if (200 <=? now - last s)%Z
     then set_last now (buildParticles (resize (set_window v s)))
     else set_last (last s) (set_window v s)).
Proof.
  intros H1 H2 H3. split; [|split].
  - rewrite fire_times_fires. simpl.
    destruct (200 <=? t1 - last0)%Z eqn:E1; [|apply Z.leb_gt in E1; lia].
    destruct (200 <=? t2 - t1)%Z eqn:E2; [apply Z.leb_le in E2; lia|].
    reflexivity.
  - intros l nows. rewrite fire_times_fires. apply fires_spaced. lia.
  - intros s v now. simpl. unfold on_resize, throttle. simpl.
    destruct (200 <=? now - last s)%Z; reflexivity.
Qed.

Lemma resize_throttle_leading_edge_witness :
  fire_times 200 0 [1000; 1100]%Z = [1000%Z].
Proof.
  apply (resize_throttle_leading_edge sqrt_floor 0 1000 1100); lia.
Defined.

(** Two resize events 100 ms apart: the rebuild is made at the first one,
    before the second, and nothing follows the second. *)
Lemma resize_rebuild_not_trailing :
  (1100 - 1000 < 200)%Z /\ fire_times 200 0 [1000; 1100]%Z = [1000%Z] /\
  ~ trailing_edge 200 0 [1000; 1100]%Z.
Proof.
  split; [lia|]. split; [reflexivity|].
  intros H. specialize (H 1000%Z (or_introl eq_refl)).
  inversion H as [|? ? _ H']; subst. inversion H' as [|? ? Hle _]; subst. lia.
Qed.

(** A burst that follows a rebuild closely rebuilds nothing. *)
Example burst_after_rebuild : fire_times 200 1000 [1050; 1100]%Z = [].
Proof. reflexivity. Qed.

(** ** The particle set *)

Lemma new_particles_length (n : nat) (width height : Q) (g : rng) :
  length (fst (new_particles n width height g)) = n.
Proof.
  revert g. induction n as [|n IH]; intros g; [reflexivity|].
  simpl. unfold bind.
  destruct (Particle.new width height g) as [p g1].
  specialize (IH g1).
  destruct (new_particles n width height g1) as [ps g2].
  simpl in *. congruence.
Qed.

Lemma buildParticles_count (s : canvas) :
  PARTICLE_COUNT (buildParticles s) = PARTICLE_COUNT s /\
  length (particles (buildParticles s)) = Z.to_nat (PARTICLE_COUNT s).
Proof.
  unfold buildParticles.
  pose proof (new_particles_length (Z.to_nat (PARTICLE_COUNT s)) (width s) (height s)
                (random s)) as H.
  destruct (new_particles _ _ _ _) as [ps g]. simpl in *. auto.
Qed.

(** [buildParticles] leaves the page alone. *)
Lemma buildParticles_page (s : canvas) :
  hidden (buildParticles s) = hidden s /\
  callbacks (buildParticles s) = callbacks s /\
  ctx (buildParticles s) = ctx s.
Proof.
  unfold buildParticles. destruct (new_particles _ _ _ _). repeat split.
Qed.

Lemma particle_count_range (v : viewport) :
  0 <= innerWidth v -> (0 <= particle_count v <= 70)%Z.
Proof.
  intros H. unfold particle_count, Math_min, Math_floor.
  assert (0 <= Qfloor (innerWidth v / 16))%Z.
  { change 0%Z with (Qfloor 0). apply Qfloor_resp_le.
    apply Qle_shift_div_l; lra. }
  lia.
Qed.

Lemma filter_none {A : Type} (f : A -> bool) (l : list A) :
  (forall a, In a l -> f a = false) -> filter f l = [].
Proof.
  induction l as [|a l IH]; intros H; simpl; [reflexivity|].
  rewrite (H a (or_introl eq_refl)). apply IH. intros b Hb. apply H. right. exact Hb.
Qed.

Lemma NoDup_flat_map_key {A B K : Type} (key : B -> K) (owner : K -> A)
    (f : A -> list B) (l : list A) :
  NoDup l ->
  (forall a b, In b (f a) -> owner (key b) = a) ->
  (forall a, NoDup (map key (f a))) ->
  NoDup (map key (flat_map f l)).
Proof.
  intros Hl Hown Hf. induction l as [|a l IH]; simpl; [constructor|].
  apply NoDup_cons_iff in Hl. destruct Hl as [Ha Hl].
  rewrite map_app. apply NoDup_app; [apply Hf | apply IH, Hl |].
  intros k Hk1 Hk2.
  apply in_map_iff in Hk1. destruct Hk1 as (b1 & <- & Hb1).
  apply in_map_iff in Hk2. destruct Hk2 as (b2 & Hk & Hb2).
  apply in_flat_map in Hb2. destruct Hb2 as (a' & Ha' & Hb2).
  apply Hown in Hb1. apply Hown in Hb2. rewrite Hk, Hb1 in Hb2. subst a'.
  contradiction.
Qed.

Section CanvasFacts.

Variable Math_sqrt : Q -> Q.

Lemma frame_particles (s : canvas) :
  particles (frame Math_sqrt s) =
  map (Particle.move (width s) (height s)) (particles s).
Proof. reflexivity. Qed.

(** What every [frame] keeps, a run of the callbacks keeps. *)
Lemma callbacks_fold (P : canvas -> Prop) :
  (forall s, P s -> P (frame Math_sqrt s)) ->
  forall (cbs : list nat) (s : canvas),
    P s -> P (fold_left (fun s _ => frame Math_sqrt s) cbs s).
Proof.
  intros HP cbs. induction cbs as [|h cbs IH]; intros s Hs; simpl; auto.
Qed.

Lemma frame_sized (c : Z) (s : canvas) : sized c s -> sized c (frame Math_sqrt s).
Proof.
  intros [Hc Hl]. split; [exact Hc|].
  rewrite frame_particles, length_map. exact Hl.
Qed.

Lemma step_sized (c : Z) (s : canvas) (e : event) :
  sized c s -> sized c (step Math_sqrt s e).
Proof.
  intros Hs. destruct e as [v now|h|]; simpl.
  - unfold on_resize, throttle. simpl.
    destruct (200 <=? now - last s)%Z; simpl; [|exact Hs].
    destruct Hs as [Hc Hl].
    destruct (buildParticles_count (resize (set_window v s))) as [Hc' Hl'].
    split; simpl.
    + rewrite Hc'. exact Hc.
    + rewrite Hl'. simpl. rewrite Hc. reflexivity.
  - unfold on_visibilitychange. simpl. destruct h.
    + destruct (animId s); exact Hs.
    + exact Hs.
  - unfold run_callbacks. apply callbacks_fold.
    + intros s'. apply frame_sized.
    + exact Hs.
Qed.

Lemma run_sized (c : Z) (es : list event) (s : canvas) :
  sized c s -> sized c (run Math_sqrt s es).
Proof.
  revert s. induction es as [|e es IH]; intros s Hs; simpl; [exact Hs|].
  apply IH, step_sized, Hs.
Qed.

Lemma initCanvas_sized (v : viewport) (h : bool) (g : rng) :
  sized (particle_count v) (initCanvas Math_sqrt v h g).
Proof.
  unfold initCanvas. apply frame_sized.
  match goal with |- sized _ (buildParticles ?s) =>
    destruct (buildParticles_count s) as [Hc Hl] end.
  split; [rewrite Hc; reflexivity | rewrite Hl; reflexivity].
Qed.

Lemma frame_fixed_part (s : canvas) :
  map fixed_part (particles (frame Math_sqrt s)) = map fixed_part (particles s).
Proof.
  rewrite frame_particles, map_map. apply map_ext. reflexivity.
Qed.

Lemma step_fixed_part (s : canvas) (e : event) :
  rebuilds s e = false ->
  map fixed_part (particles (step Math_sqrt s e)) = map fixed_part (particles s).
Proof.
  destruct e as [v now|h|]; simpl; intros Hr.
  - unfold on_resize, throttle. simpl. rewrite Hr. reflexivity.
  - unfold on_visibilitychange. simpl. destruct h; [destruct (animId s)|]; reflexivity.
  - unfold run_callbacks.
    apply (callbacks_fold
             (fun s' => map fixed_part (particles s') = map fixed_part (particles s))).
    + intros s' Hs'. rewrite frame_fixed_part. exact Hs'.
    + reflexivity.
Qed.

Lemma run_fixed_part (es : list event) (s : canvas) :
  keeps_set Math_sqrt s es ->
  map fixed_part (particles (run Math_sqrt s es)) = map fixed_part (particles s).
Proof.
  revert s. induction es as [|e es IH]; intros s Hk; simpl; [reflexivity|].
  destruct Hk as [Hr Hk]. rewrite (IH _ Hk). apply step_fixed_part, Hr.
Qed.

(** ** drawLines *)

Lemma connect_Some (pi pj : Particle.state) (l : op) :
  connect Math_sqrt pi pj = Some l <->
  distance Math_sqrt pi pj < 160 /\
  l = strokeLine (Particle.x pi) (Particle.y pi) (Particle.x pj) (Particle.y pj)
        (interpolateColor ((Particle.t pi + Particle.t pj) / 2))
        (line_alpha (distance Math_sqrt pi pj)) (8 # 10).
Proof.
  unfold connect. fold (distance Math_sqrt pi pj).
  destruct (Qltb (distance Math_sqrt pi pj) CONNECT_DIST) eqn:E.
  - apply Qltb_lt in E. split.
    + intros H. injection H as <-. split; [exact E | reflexivity].
    + intros [_ ->]. reflexivity.
  - apply Qltb_ge in E. split; [discriminate|].
    intros [H _]. exfalso. apply (Qlt_not_le _ _ H E).
Qed.

(** The lines drawn are those of the pairs [i < j] that [connect] joins. *)
Lemma drawLines_In (ps : list Particle.state) (i j : nat) (l : op) :
  In (i, j, l) (drawLines Math_sqrt ps) <->
  exists pi pj, (i < j)%nat /\ nth_error ps i = Some pi /\
                nth_error ps j = Some pj /\ connect Math_sqrt pi pj = Some l.
Proof.
  unfold drawLines. rewrite in_flat_map. split.
  - intros (i' & Hi' & H). rewrite in_flat_map in H.
    destruct H as (j' & Hj' & H).
    apply in_seq in Hj'.
    destruct (nth_error ps i') as [pi|] eqn:Ei; [|destruct H].
    destruct (nth_error ps j') as [pj|] eqn:Ej; [|destruct H].
    destruct (connect Math_sqrt pi pj) as [l'|] eqn:Ec; [|destruct H].
    destruct H as [H|[]]. injection H as -> -> ->.
    exists pi, pj. repeat split; auto. lia.
  - intros (pi & pj & Hij & Hi & Hj & Hc).
    assert (Hjl : (j < length ps)%nat) by (apply nth_error_Some; congruence).
    exists i. split; [apply in_seq; lia|].
    rewrite in_flat_map. exists j. split; [apply in_seq; lia|].
    rewrite Hi, Hj, Hc. left. reflexivity.
Qed.

(** No pair of indices gets two lines. *)
Lemma drawLines_once (ps : list Particle.state) :
  NoDup (map fst (drawLines Math_sqrt ps)).
Proof.
  unfold drawLines.
  apply (NoDup_flat_map_key fst fst); [apply seq_NoDup | |].
  - intros i b Hb. apply in_flat_map in Hb. destruct Hb as (j & _ & Hb).
    destruct (nth_error ps i); [|destruct Hb].
    destruct (nth_error ps j); [|destruct Hb].
    destruct (connect _ _ _); [|destruct Hb].
    destruct Hb as [<-|[]]. reflexivity.
  - intros i. apply (NoDup_flat_map_key fst snd); [apply seq_NoDup | |].
    + intros j b Hb.
      destruct (nth_error ps i); [|destruct Hb].
      destruct (nth_error ps j); [|destruct Hb].
      destruct (connect _ _ _); [|destruct Hb].
      destruct Hb as [<-|[]]. reflexivity.
    + intros j.
      destruct (nth_error ps i); [|constructor].
      destruct (nth_error ps j); [|constructor].
      destruct (connect _ _ _); simpl; repeat constructor. intros [].
Qed.

Lemma drawLines_strokes (ps : list Particle.state) (o : op) :
  In o (map snd (drawLines Math_sqrt ps)) ->
  exists x1 y1 x2 y2 c a w, o = strokeLine x1 y1 x2 y2 c a w.
Proof.
  intros H. apply in_map_iff in H. destruct H as ([[i j] l] & <- & H).
  apply drawLines_In in H. destruct H as (pi & pj & _ & _ & _ & H).
  apply connect_Some in H. destruct H as [_ ->]. simpl. repeat eexists.
Qed.

End CanvasFacts.

(** ** The wrap invariant *)

Lemma new_particles_wrapped (n : nat) (width height : Q) (g : rng) :
  unit_draws g -> 0 <= width -> 0 <= height ->
  Forall (wrapped width height) (fst (new_particles n width height g)) /\
  unit_draws (snd (new_particles n width height g)).
Proof.
  intros Hg Hw Hh. revert g Hg. induction n as [|n IH]; intros g Hg.
  - split; [constructor | exact Hg].
  - simpl. unfold bind.
    pose proof (new_wrapped width height g Hg Hw Hh) as Hp.
    unfold Particle.new in *. rewrite reset_fields in *.
    assert (Hg1 : unit_draws (mkRng (draws g) (6 + cursor g))) by exact Hg.
    destruct (IH _ Hg1) as [Hf Hu].
    destruct (new_particles n width height _) as [ps g2].
    simpl in *. split; [constructor; assumption | exact Hu].
Qed.

Lemma buildParticles_wrapped (s : canvas) :
  unit_draws (random s) -> 0 <= width s -> 0 <= height s ->
  field_wrapped (buildParticles s).
Proof.
  intros Hg Hw Hh. unfold field_wrapped, buildParticles.
  destruct (new_particles_wrapped (Z.to_nat (PARTICLE_COUNT s)) (width s) (height s)
              (random s) Hg Hw Hh) as [Hf Hu].
  destruct (new_particles _ _ _ _) as [ps g]. simpl in *. auto.
Qed.

Section Field.

Variable Math_sqrt : Q -> Q.

Lemma frame_wrapped (s : canvas) : field_wrapped s -> field_wrapped (frame Math_sqrt s).
Proof.
  intros (Hg & Hw & Hh & Hf). unfold field_wrapped.
  change (random (frame Math_sqrt s)) with (random s).
  change (width (frame Math_sqrt s)) with (width s).
  change (height (frame Math_sqrt s)) with (height s).
  rewrite frame_particles.
  split; [exact Hg|]. split; [exact Hw|]. split; [exact Hh|].
  apply Forall_map. apply Forall_forall. intros p _. apply move_wrapped; lra.
Qed.

Lemma step_wrapped (s : canvas) (e : event) :
  field_wrapped s -> sizes_ok [e] -> field_wrapped (step Math_sqrt s e).
Proof.
  intros Hs Hok. destruct e as [v now|h|]; simpl.
  - unfold on_resize, throttle. simpl.
    destruct (200 <=? now - last s)%Z; [|exact Hs].
    apply Forall_inv in Hok. destruct Hok as [Hw Hh].
    destruct Hs as (Hg & _).
    destruct (buildParticles_wrapped (resize (set_window v s)) Hg Hw Hh)
      as (B1 & B2 & B3 & B4).
    split; [exact B1|]. split; [exact B2|]. split; [exact B3 | exact B4].
  - unfold on_visibilitychange. simpl.
    destruct h; [destruct (animId s)|]; exact Hs.
  - unfold run_callbacks. apply callbacks_fold; [apply frame_wrapped | exact Hs].
Qed.

Lemma run_wrapped (es : list event) (s : canvas) :
  field_wrapped s -> sizes_ok es -> field_wrapped (run Math_sqrt s es).
Proof.
  revert s. induction es as [|e es IH]; intros s Hs Hok; simpl; [exact Hs|].
  inversion Hok as [|? ? He Hok']; subst.
  apply IH; [|exact Hok']. apply step_wrapped; [exact Hs|].
  constructor; [exact He | constructor].
Qed.

Lemma initCanvas_wrapped (v : viewport) (h : bool) (g : rng) :
  unit_draws g -> 0 <= offsetWidth v -> 0 <= offsetHeight v ->
  field_wrapped (initCanvas Math_sqrt v h g).
Proof.
  intros Hg Hw Hh. unfold initCanvas. apply frame_wrapped.
  apply buildParticles_wrapped; assumption.
Qed.

End Field.

(** C2, as the code has it: after any number of calls of [move] on a new
    particle, [x] is in [[-10, width + 10]] and [y] in [[-10, height + 10]],
    both ends included: a coordinate that falls below [-10] is put on the far
    end itself.  The same holds of every particle of the field after any
    events, for the width and height that the field has then. *)
Theorem moves_wrapped (Math_sqrt : Q -> Q) (n : nat) (W H : Q) (g : rng)
    (v : viewport) (h : bool) (es : list event) :
  unit_draws g -> 0 <= W -> 0 <= H ->
  0 <= offsetWidth v -> 0 <= offsetHeight v -> sizes_ok es ->
  wrapped W H (moves n W H (fst (Particle.new W H g))) /\
  Forall (wrapped (width (run Math_sqrt (initCanvas Math_sqrt v h g) es))
                  (height (run Math_sqrt (initCanvas Math_sqrt v h g) es)))
         (particles (run Math_sqrt (initCanvas Math_sqrt v h g) es)).
Proof.
  intros Hg Hw Hh Hvw Hvh Hes. split.
  - destruct n as [|n].
    + apply new_wrapped; assumption.
    + change (moves (S n) W H ?p) with (Particle.move W H (moves n W H p)).
      apply move_wrapped; lra.
  - apply (run_wrapped Math_sqrt es); [|exact Hes].
    apply initCanvas_wrapped; assumption.
Qed.

Lemma moves_wrapped_witness :
  wrapped 100 100 (moves 45 100 100 (fst (Particle.new 100 100 (constant_draws 0)))).
Proof.
  apply (moves_wrapped sqrt_floor 45 100 100 (constant_draws 0)
           (window_of_width 32) false [AnimationFrame; Resize (window_of_width 64) 1000]).
  - intros n. simpl. lra.
  - lra.
  - lra.
  - simpl. lra.
  - simpl. lra.
  - repeat constructor; simpl; lra.
Defined.

(** A particle born at [(0, 0)] with velocity [-0.225] on both axes is at
    [-10.125] after 45 moves and is put at [width + 10 = 110], the excluded
    end of the half-open interval. *)
Lemma moves_reach_far_edge :
  unit_draws (constant_draws 0) /\
  ~ wrapped_half_open 100 100
      (moves 45 100 100 (fst (Particle.new 100 100 (constant_draws 0)))).
Proof.
  split.
  - intros n. simpl. lra.
  - unfold wrapped_half_open. intros (_ & H & _).
    vm_compute in H. discriminate H.
Qed.

Example far_edge_reached :
  Particle.x (moves 45 100 100 (fst (Particle.new 100 100 (constant_draws 0)))) = 110.
Proof. vm_compute. reflexivity. Qed.

(** ** The particle count *)

(** C1, as the code has it: the particle count is the constant
    [min(70, floor(W0 / 16))] computed once from the width [W0 >= 0] that the
    window has when the script starts; it lies between 0 and 70.  The field
    holds exactly that many particles at startup and after every event, a
    rebuild on resize included, whatever the width of the window is then. *)
Theorem particle_count_fixed (Math_sqrt : Q -> Q) (v : viewport) (h : bool)
    (g : rng) (es : list event) :
  0 <= innerWidth v ->
  let s := run Math_sqrt (initCanvas Math_sqrt v h g) es in
  Z.of_nat (length (particles s)) = Z.min 70 (Qfloor (innerWidth v / 16)) /\
  (0 <= Z.of_nat (length (particles s)) <= 70)%Z.
Proof.
  intros Hv s.
  destruct (run_sized Math_sqrt (particle_count v) es _ (initCanvas_sized Math_sqrt v h g))
    as [Hc Hl].
  fold s in Hl. pose proof (particle_count_range v Hv) as Hr.
  rewrite Hl. rewrite Z2Nat.id by lia.
  split; [reflexivity | exact Hr].
Qed.

Lemma particle_count_fixed_witness :
  Z.of_nat (length (particles
     (run sqrt_floor (initCanvas sqrt_floor (window_of_width 1024) false (constant_draws 0))
          [Resize (window_of_width 320) 1000]))) =
  Z.min 70 (Qfloor (1024 / 16)).
Proof.
  apply (particle_count_fixed sqrt_floor (window_of_width 1024) false (constant_draws 0)
           [Resize (window_of_width 320) 1000]).
  simpl. lra.
Defined.

(** The script starts in a window 1024 px wide, which is then resized to
    320 px: the set is rebuilt (twice 64 particles of 6 draws each have been
    made) and still has 64 particles, not the 20 that the new width gives. *)
Lemma count_kept_after_resize :
  let s := run sqrt_floor
               (initCanvas sqrt_floor (window_of_width 1024) false (constant_draws 0))
               [Resize (window_of_width 320) 1000] in
  width s = 320 /\ last s = 1000%Z /\ cursor (random s) = 768%nat /\
  length (particles s) = 64%nat /\ particle_count (window s) = 20%Z /\
  ~ count_follows_width s.
Proof.
  vm_compute. repeat split; discriminate.
Qed.

Example count_at_1024 : particle_count (window_of_width 1024) = 64%Z.
Proof. reflexivity. Qed.

Example count_at_320 : particle_count (window_of_width 320) = 20%Z.
Proof. reflexivity. Qed.

Example count_at_2000 : particle_count (window_of_width 2000) = 70%Z.
Proof. reflexivity. Qed.

(** ** What a particle keeps *)

(** C8: [move] changes the position only: [vx], [vy], [r] and [t] are the
    same after the call; and along any events that do not rebuild the
    particle set, every particle keeps its velocity, radius and colour
    factor. *)
Theorem move_changes_position_only (Math_sqrt : Q -> Q) (width height : Q)
    (p : Particle.state) (s : canvas) (es : list event) :
  keeps_set Math_sqrt s es ->
  Particle.vx (Particle.move width height p) = Particle.vx p /\
  Particle.vy (Particle.move width height p) = Particle.vy p /\
  Particle.r (Particle.move width height p) = Particle.r p /\
  Particle.t (Particle.move width height p) = Particle.t p /\
  map fixed_part (particles (run Math_sqrt s es)) = map fixed_part (particles s).
Proof.
  intros Hk. repeat split. apply run_fixed_part, Hk.
Qed.

Lemma move_changes_position_only_witness :
  map fixed_part
    (particles
       (run sqrt_floor
          (initCanvas sqrt_floor (window_of_width 32) false (constant_draws (1 # 2)))
          [AnimationFrame; Resize (window_of_width 64) 100; VisibilityChange true;
           VisibilityChange false; AnimationFrame])) =
  map fixed_part
    (particles (initCanvas sqrt_floor (window_of_width 32) false (constant_draws (1 # 2)))).
Proof.
  apply (move_changes_position_only sqrt_floor 32 600 (at_xy 0 0)
           (initCanvas sqrt_floor (window_of_width 32) false (constant_draws (1 # 2)))
           [AnimationFrame; Resize (window_of_width 64) 100; VisibilityChange true;
            VisibilityChange false; AnimationFrame]).
  vm_compute. repeat split.
Defined.

(** ** The connecting lines *)

Lemma line_alpha_linear (d : Q) : line_alpha d == (18 # 100) - d * (9 # 8000).
Proof. unfold line_alpha. field. Qed.

Lemma line_alpha_decreasing (d1 d2 : Q) : d1 < d2 -> line_alpha d2 < line_alpha d1.
Proof. intros H. rewrite !line_alpha_linear. lra. Qed.

Lemma line_alpha_vanishes (eps : Q) :
  0 < eps ->
  exists delta, 0 < delta /\
    forall d, 160 - delta < d -> d < 160 -> 0 < line_alpha d /\ line_alpha d < eps.
Proof.
  intros He. exists (eps * (8000 # 9)). split; [lra|].
  intros d Hlo Hhi. rewrite line_alpha_linear. split; lra.
Qed.

(** What [drawLines] yields for a pair of any list of particles. *)
Lemma drawLines_by_distance (Math_sqrt : Q -> Q) (ps : list Particle.state)
    (i j : nat) (pi pj : Particle.state) :
  (i < j)%nat -> nth_error ps i = Some pi -> nth_error ps j = Some pj ->
  let d := distance Math_sqrt pi pj in
  ((exists l, In (i, j, l) (drawLines Math_sqrt ps)) <-> d < 160) /\
  (d < 160 ->
     In (i, j,
         strokeLine (Particle.x pi) (Particle.y pi) (Particle.x pj) (Particle.y pj)
           (interpolateColor ((Particle.t pi + Particle.t pj) / 2))
           ((1 - d / 160) * (18 # 100)) (8 # 10))
        (drawLines Math_sqrt ps)) /\
  (forall l, In (i, j, l) (drawLines Math_sqrt ps) ->
     alpha_of l == (1 - d / 160) * (18 # 100)) /\
  (160 <= d -> forall l, ~ In (i, j, l) (drawLines Math_sqrt ps)).
Proof.
  intros Hij Hi Hj d.
  assert (Hin : forall l, In (i, j, l) (drawLines Math_sqrt ps) ->
                 d < 160 /\ alpha_of l = line_alpha d).
  { intros l H. apply drawLines_In in H.
    destruct H as (pi' & pj' & _ & Hi' & Hj' & Hc).
    assert (pi' = pi) by congruence. assert (pj' = pj) by congruence. subst.
    apply connect_Some in Hc. destruct Hc as [Hd ->]. split; [exact Hd | reflexivity]. }
  assert (Hdraw : d < 160 ->
     In (i, j,
         strokeLine (Particle.x pi) (Particle.y pi) (Particle.x pj) (Particle.y pj)
           (interpolateColor ((Particle.t pi + Particle.t pj) / 2))
           ((1 - d / 160) * (18 # 100)) (8 # 10))
        (drawLines Math_sqrt ps)).
  { intros Hd. apply drawLines_In. exists pi, pj.
    repeat split; auto. apply connect_Some. split; [exact Hd | reflexivity]. }
  split; [|split; [|split]].
  - split.
    + intros [l H]. apply Hin in H. apply H.
    + intros Hd. eexists. apply (Hdraw Hd).
  - exact Hdraw.
  - intros l H. apply Hin in H. destruct H as [_ ->]. reflexivity.
  - intros Hd l H. apply Hin in H. destruct H as [H _]. apply (Qlt_not_le _ _ H Hd).
Qed.

(** Every line of [drawLines] joins a pair closer than 160. *)
Lemma drawLines_only_close (Math_sqrt : Q -> Q) (ps : list Particle.state) (o : op) :
  In o (map snd (drawLines Math_sqrt ps)) ->
  exists i j pi pj,
    (i < j)%nat /\ nth_error ps i = Some pi /\ nth_error ps j = Some pj /\
    distance Math_sqrt pi pj < 160 /\
    o = strokeLine (Particle.x pi) (Particle.y pi) (Particle.x pj) (Particle.y pj)
          (interpolateColor ((Particle.t pi + Particle.t pj) / 2))
          ((1 - distance Math_sqrt pi pj / 160) * (18 # 100)) (8 # 10).
Proof.
  intros H. apply in_map_iff in H. destruct H as ([[i j] l] & <- & H).
  apply drawLines_In in H. destruct H as (pi & pj & Hij & Hi & Hj & Hc).
  apply connect_Some in Hc. destruct Hc as [Hd ->].
  exists i, j, pi, pj. repeat split; auto.
Qed.

(** C3: in a frame, the lines put on the context after the circles are those
    of [drawLines] on the particles as the frame has just moved them.  For
    particles [i < j] of the frame at distance [d], a line joining them is
    drawn in the frame iff [d < 160] (every line on the context joins a pair
    closer than 160, and no pair gets two lines); its stroke alpha is
    [(1 - d / 160) * 0.18], which is strictly decreasing in [d] and tends to 0
    as [d] tends to 160; at [d = 80] the alpha is 0.09 and at [d >= 160] no
    line is drawn. *)
Theorem lines_by_distance (Math_sqrt : Q -> Q) (s : canvas)
    (i j : nat) (pi pj : Particle.state) :
  (i < j)%nat ->
  nth_error (particles (frame Math_sqrt s)) i = Some pi ->
  nth_error (particles (frame Math_sqrt s)) j = Some pj ->
  let ps := particles (frame Math_sqrt s) in
  let d := distance Math_sqrt pi pj in
  ps = map (Particle.move (width s) (height s)) (particles s) /\
  ctx (frame Math_sqrt s) =
    ctx s ++ clearRect 0 0 (width s) (height s)
          :: map Particle.draw ps ++ map snd (drawLines Math_sqrt ps) /\
  ((exists l, In (i, j, l) (drawLines Math_sqrt ps)) <-> d < 160) /\
  (d < 160 ->
     In (strokeLine (Particle.x pi) (Particle.y pi) (Particle.x pj) (Particle.y pj)
           (interpolateColor ((Particle.t pi + Particle.t pj) / 2))
           ((1 - d / 160) * (18 # 100)) (8 # 10))
        (map snd (drawLines Math_sqrt ps))) /\
  (forall o, In o (map snd (drawLines Math_sqrt ps)) ->
     exists i' j' qi qj,
       (i' < j')%nat /\ nth_error ps i' = Some qi /\ nth_error ps j' = Some qj /\
       distance Math_sqrt qi qj < 160 /\
       o = strokeLine (Particle.x qi) (Particle.y qi) (Particle.x qj) (Particle.y qj)
             (interpolateColor ((Particle.t qi + Particle.t qj) / 2))
             ((1 - distance Math_sqrt qi qj / 160) * (18 # 100)) (8 # 10)) /\
  NoDup (map fst (drawLines Math_sqrt ps)) /\
  (forall l, In (i, j, l) (drawLines Math_sqrt ps) ->
     alpha_of l == (1 - d / 160) * (18 # 100)) /\
  (160 <= d -> forall l, ~ In (i, j, l) (drawLines Math_sqrt ps)) /\
  (forall d1 d2 : Q, d1 < d2 -> line_alpha d2 < line_alpha d1) /\
  (forall eps : Q, 0 < eps ->
     exists delta, 0 < delta /\
       forall d', 160 - delta < d' -> d' < 160 ->
         0 < line_alpha d' /\ line_alpha d' < eps) /\
  line_alpha 80 == 9 # 100.
Proof.
  intros Hij Hi Hj ps d.
  destruct (drawLines_by_distance Math_sqrt ps i j pi pj Hij Hi Hj)
    as (Hiff & Hdraw & Halpha & Hfar).
  split; [reflexivity|].
  split; [reflexivity|].
  split; [exact Hiff|].
  split.
  { intros Hd. apply in_map_iff. eexists. split; [|apply (Hdraw Hd)]. reflexivity. }
  split; [apply drawLines_only_close|].
  split; [apply drawLines_once|].
  split; [exact Halpha|].
  split; [exact Hfar|].
  split; [apply line_alpha_decreasing|].
  split; [apply line_alpha_vanishes | reflexivity].
Qed.

Lemma lines_by_distance_witness :
  In (strokeLine 0 0 48 64 (interpolateColor ((0 + 0) / 2))
        ((1 - distance sqrt_floor (at_xy 0 0) (at_xy 48 64) / 160) * (18 # 100)) (8 # 10))
     (map snd (drawLines sqrt_floor (particles (frame sqrt_floor two_at_rest)))).
Proof.
  apply (lines_by_distance sqrt_floor two_at_rest 0 1 (at_xy 0 0) (at_xy 48 64)).
  - lia.
  - reflexivity.
  - reflexivity.
  - reflexivity.
Defined.

(** The frame of two particles at rest 80 px apart: the context gets the
    clear, the two circles and one line at alpha 0.09. *)
Example frame_of_two :
  ctx (frame sqrt_floor two_at_rest) =
  [clearRect 0 0 200 200;
   fillArc 0 0 1 ACCENT (65 # 100); fillArc 48 64 1 ACCENT (65 # 100);
   strokeLine 0 0 48 64 ACCENT (line_alpha 80) (8 # 10)].
Proof. reflexivity. Qed.

(** Two particles 80 px apart: one line, at alpha 0.09. *)
Example line_at_80 :
  drawLines sqrt_floor [at_xy 0 0; at_xy 48 64] =
  [(0%nat, 1%nat, strokeLine 0 0 48 64 ACCENT (line_alpha 80) (8 # 10))].
Proof. reflexivity. Qed.

(** Two particles 160 px apart: no line. *)
Example no_line_at_160 : drawLines sqrt_floor [at_xy 0 0; at_xy 96 128] = [].
Proof. reflexivity. Qed.

(** ** Visibility gating *)

Section Gating.

Variable Math_sqrt : Q -> Q.

(** A call of [frame] draws one frame. *)
Lemma frame_draws_once (s : canvas) :
  frames_drawn (ctx (frame Math_sqrt s)) = S (frames_drawn (ctx s)).
Proof.
  unfold frames_drawn.
  change (ctx (frame Math_sqrt s)) with
    (ctx s ++ [clearRect 0 0 (width s) (height s)]
       ++ map Particle.draw (map (Particle.move (width s) (height s)) (particles s))
       ++ map snd (drawLines Math_sqrt
                    (map (Particle.move (width s) (height s)) (particles s)))).
  rewrite !filter_app, !length_app.
  rewrite (filter_none _ (map Particle.draw _)).
  - rewrite (filter_none _ (map snd _)).
    + simpl. lia.
    + intros o Ho. apply drawLines_strokes in Ho.
      destruct Ho as (x1 & y1 & x2 & y2 & c & a & w & ->). reflexivity.
  - intros o Ho. apply in_map_iff in Ho. destruct Ho as (p & <- & _). reflexivity.
Qed.

Lemma frame_gated (s : canvas) :
  hidden s = false -> callbacks s = [] -> gated (frame Math_sqrt s).
Proof.
  intros Hh Hc. unfold gated.
  change (hidden (frame Math_sqrt s)) with (hidden s). rewrite Hh.
  exists (next_handle s). split; [|reflexivity].
  change (callbacks (frame Math_sqrt s)) with (callbacks s ++ [next_handle s]).
  rewrite Hc. reflexivity.
Qed.

Lemma step_gated (s : canvas) (e : event) :
  gated s -> alternating (hidden s) [e] -> gated (step Math_sqrt s e).
Proof.
  unfold gated. intros Hg Ha. destruct e as [v now|h|].
  - simpl. unfold on_resize, throttle. simpl.
    destruct (200 <=? now - last s)%Z; simpl.
    + unfold buildParticles. destruct (new_particles _ _ _ _). exact Hg.
    + exact Hg.
  - destruct Ha as [-> _]. simpl. unfold on_visibilitychange. simpl.
    destruct (hidden s); simpl.
    + exists (next_handle s). rewrite Hg. split; reflexivity.
    + destruct Hg as (a & Hc & ->). simpl. rewrite Hc. simpl.
      rewrite Nat.eqb_refl. reflexivity.
  - simpl. unfold run_callbacks. destruct (hidden s) eqn:Hh.
    + rewrite Hg. simpl. rewrite Hh. reflexivity.
    + destruct Hg as (a & Hc & Ha'). rewrite Hc. simpl.
      apply (frame_gated (set_callbacks [] (next_handle s) s)); [exact Hh | reflexivity].
Qed.

Lemma step_hidden (s : canvas) (e : event) :
  hidden (step Math_sqrt s e) =
  match e with VisibilityChange h => h | _ => hidden s end.
Proof.
  destruct e as [v now|h|]; simpl.
  - unfold on_resize, throttle. simpl.
    destruct (200 <=? now - last s)%Z; simpl; [|reflexivity].
    destruct (buildParticles_page (resize (set_window v s))) as (-> & _ & _).
    reflexivity.
  - unfold on_visibilitychange. simpl. destruct h; [destruct (animId s)|]; reflexivity.
  - unfold run_callbacks.
    apply (callbacks_fold Math_sqrt (fun s' => hidden s' = hidden s)); auto.
Qed.

Lemma run_gated (es : list event) (s : canvas) :
  gated s -> alternating (hidden s) es -> gated (run Math_sqrt s es).
Proof.
  revert s. induction es as [|e es IH]; intros s Hg Ha; simpl; [exact Hg|].
  apply IH.
  - apply step_gated; [exact Hg|]. destruct e; simpl in *; tauto.
  - rewrite step_hidden. destruct e; simpl in *; tauto.
Qed.

Lemma initCanvas_hidden (v : viewport) (h : bool) (g : rng) :
  hidden (initCanvas Math_sqrt v h g) = h.
Proof.
  unfold initCanvas.
  match goal with |- hidden (frame _ (buildParticles ?s)) = _ =>
    change (hidden (buildParticles s) = h);
    destruct (buildParticles_page s) as (-> & _ & _) end.
  reflexivity.
Qed.

Lemma initCanvas_gated (v : viewport) (g : rng) :
  gated (initCanvas Math_sqrt v false g).
Proof.
  unfold initCanvas. apply frame_gated.
  - match goal with |- hidden (buildParticles ?s) = _ =>
      destruct (buildParticles_page s) as (-> & _ & _) end. reflexivity.
  - match goal with |- callbacks (buildParticles ?s) = _ =>
      destruct (buildParticles_page s) as (_ & -> & _) end. reflexivity.
Qed.

(** While the page is hidden with no request pending, nothing is drawn. *)
Lemma hidden_quiet (es : list event) (s : canvas) :
  hidden s = true -> callbacks s = [] -> no_visibility es ->
  ctx (run Math_sqrt s es) = ctx s /\
  callbacks (run Math_sqrt s es) = [] /\
  hidden (run Math_sqrt s es) = true.
Proof.
  revert s. induction es as [|e es IH]; intros s Hh Hc Hq; simpl; [auto|].
  inversion Hq as [|? ? He Hq']; subst.
  assert (H : ctx (step Math_sqrt s e) = ctx s /\
              callbacks (step Math_sqrt s e) = [] /\
              hidden (step Math_sqrt s e) = true).
  { destruct e as [v now|h|]; [|destruct He|]; simpl.
    - unfold on_resize, throttle. simpl.
      destruct (200 <=? now - last s)%Z; simpl; [|auto].
      match goal with |- ctx (buildParticles ?s') = _ /\ _ =>
        destruct (buildParticles_page s') as (-> & -> & ->) end.
      simpl. auto.
    - unfold run_callbacks. rewrite Hc. simpl. auto. }
  destruct H as (H1 & H2 & H3).
  destruct (IH _ H3 H2 Hq') as (I1 & I2 & I3).
  rewrite I1, H1. auto.
Qed.

(** When the script starts in a visible page and every visibility event
    reports a change: once the page is hidden no request is pending and
    nothing is drawn until the page is visible again; then one request is
    pending and the next animation frame draws one frame. *)
Lemma visibility_gating_from_visible (v : viewport) (g : rng)
    (es1 es2 : list event) :
  alternating false (es1 ++ [VisibilityChange true]) ->
  no_visibility es2 ->
  let s1 := run Math_sqrt (initCanvas Math_sqrt v false g)
                (es1 ++ [VisibilityChange true]) in
  let s2 := run Math_sqrt s1 es2 in
  let s3 := step Math_sqrt s2 (VisibilityChange false) in
  callbacks s1 = [] /\
  ctx s2 = ctx s1 /\
  (exists a, callbacks s3 = [a] /\ animId s3 = Some a) /\
  frames_drawn (ctx (step Math_sqrt s3 AnimationFrame)) = S (frames_drawn (ctx s3)).
Proof.
  intros Ha Hq s1 s2 s3.
  assert (Hg : gated s1).
  { apply run_gated; [apply initCanvas_gated|]. rewrite initCanvas_hidden. exact Ha. }
  assert (Hh : hidden s1 = true).
  { unfold s1, run. rewrite fold_left_app. cbn [fold_left].
    apply (step_hidden _ (VisibilityChange true)). }
  unfold gated in Hg. rewrite Hh in Hg.
  destruct (hidden_quiet es2 s1 Hh Hg Hq) as (Q1 & Q2 & Q3). fold s2 in Q1, Q2, Q3.
  assert (H3 : callbacks s3 = [next_handle s2] /\ animId s3 = Some (next_handle s2)).
  { unfold s3. simpl. unfold on_visibilitychange. simpl. rewrite Q2. auto. }
  repeat split; [exact Hg | exact Q1 | exists (next_handle s2); exact H3 |].
  change (step Math_sqrt s3 AnimationFrame) with (run_callbacks Math_sqrt s3).
  unfold run_callbacks. destruct H3 as [-> _]. cbn [fold_left].
  rewrite frame_draws_once. reflexivity.
Qed.

End Gating.

(** C6, where the code departs from it: the script starts while the page is
    hidden (a tab opened in the background).  [frame()] at startup leaves
    request 1 pending; when the page becomes visible the listener adds
    request 2 without cancelling request 1, so each animation frame draws two
    frames.  When the page is hidden again only the request kept in [animId]
    is cancelled: request 3 stays pending, a later animation frame would still
    draw, and when the page is visible again two requests are pending and
    every animation frame draws twice. *)
Theorem hide_leaves_a_request_pending :
  let s0 := initCanvas sqrt_floor (window_of_width 32) true (constant_draws (1 # 2)) in
  let s1 := step sqrt_floor s0 (VisibilityChange false) in
  let s2 := step sqrt_floor s1 AnimationFrame in
  let s3 := step sqrt_floor s2 (VisibilityChange true) in
  let s4 := step sqrt_floor s3 (VisibilityChange false) in
  length (particles s0) = 2%nat /\
  callbacks s0 = [1%nat] /\
  callbacks s1 = [1%nat; 2%nat] /\
  frames_drawn (ctx s2) = (frames_drawn (ctx s1) + 2)%nat /\
  callbacks s2 = [3%nat; 4%nat] /\ animId s2 = Some 4%nat /\
  hidden s3 = true /\ callbacks s3 = [3%nat] /\
  frames_drawn (ctx (step sqrt_floor s3 AnimationFrame)) = (frames_drawn (ctx s3) + 1)%nat /\
  callbacks s4 = [3%nat; 5%nat] /\
  frames_drawn (ctx (step sqrt_floor s4 AnimationFrame)) = (frames_drawn (ctx s4) + 2)%nat.
Proof. vm_compute. repeat split. Qed.

(** ** deploy.sh *)

Section DeployFacts.

Import Deploy.
Local Open Scope string_scope.
Local Open Scope Z_scope.

Ltac script :=
  cbv beta iota zeta delta
    [run_deploy deploy build andthen the_world say act exit pure source
     tool set_dist fs vars trace negb];
  cbn [dist_dir root_dir env_file environ src_dir
       rsync_status sync_html_status sync_assets_status invalidation].

Lemma required_unset (name message : string) (w : world) (vs : list (string * string))
    (log : list action) :
  match lookup name vs with Some v => String.eqb v EmptyString | None => true end = true ->
  required name message (mkShell w vs log) =
  (exited 1, mkShell w vs (log ++ [diagnostic (name ++ ": " ++ message)])).
Proof.
  intros H. unfold required. cbn [vars].
  destruct (lookup name vs) as [v|]; [rewrite H|]; reflexivity.
Qed.

Lemma required_set (name message : string) (w : world) (vs : list (string * string))
    (log : list action) :
  match lookup name vs with Some v => String.eqb v EmptyString | None => true end = false ->
  exists v, required name message (mkShell w vs log) = (go v, mkShell w vs log).
Proof.
  intros H. unfold required. cbn [vars].
  destruct (lookup name vs) as [v|]; [|discriminate].
  rewrite H. exists v. reflexivity.
Qed.

Lemma deploy_no_env_file (args : list string) (w : world) :
  env_file w = None ->
  fst (run_deploy args w) = 1 /\
  In (echo (env_not_found w)) (snd (run_deploy args w)) /\
  filter is_upload (snd (run_deploy args w)) = [].
Proof.
  intros H. script. rewrite H. script. simpl.
  repeat split. left. reflexivity.
Qed.

Lemma deploy_unset_variable (args : list string) (w : world)
    (assignments : list (string * string)) (name : string) :
  env_file w = Some assignments ->
  In name required_names -> unset name w assignments = true ->
  fst (run_deploy args w) = 1 /\
  (exists name', In name' required_names /\ unset name' w assignments = true /\
                 In (not_set name') (snd (run_deploy args w))) /\
  filter is_upload (snd (run_deploy args w)) = [].
Proof.
  intros He Hn Hu.
  script. rewrite He. script.
  destruct (unset "S3_BUCKET" w assignments) eqn:E1.
  { rewrite (required_unset _ _ _ _ _ E1). simpl. repeat split.
    exists "S3_BUCKET". repeat split; [left; reflexivity | exact E1 | left; reflexivity]. }
  destruct (required_set "S3_BUCKET" "S3_BUCKET is not set in .env" w _ [] E1) as [v1 ->].
  script.
  destruct (unset "AWS_REGION" w assignments) eqn:E2.
  { rewrite (required_unset _ _ _ _ _ E2). simpl. repeat split.
    exists "AWS_REGION". repeat split; [right; left; reflexivity | exact E2 | left; reflexivity]. }
  destruct (required_set "AWS_REGION" "AWS_REGION is not set in .env" w _ [] E2) as [v2 ->].
  script.
  assert (E3 : unset "CLOUDFRONT_DISTRIBUTION_ID" w assignments = true).
  { destruct Hn as [<-|[<-|[<-|[]]]]; congruence. }
  rewrite (required_unset _ _ _ _ _ E3). simpl. repeat split.
  exists "CLOUDFRONT_DISTRIBUTION_ID".
  repeat split; [right; right; left; reflexivity | exact E3 | left; reflexivity].
Qed.

Lemma deploy_reaches_build (args : list string) (w : world)
    (assignments : list (string * string)) :
  env_file w = Some assignments ->
  (forall name, In name required_names -> unset name w assignments = false) ->
  (skip_build args = false -> rsync_status w <> 0 ->
     fst (run_deploy args w) = rsync_status w /\
     filter is_upload (snd (run_deploy args w)) = []) /\
  (skip_build args = true \/ rsync_status w = 0 ->
   missing_or_empty (dist_at_check args w) = true ->
     fst (run_deploy args w) = 1 /\
     In (echo dist_is_empty) (snd (run_deploy args w)) /\
     filter is_upload (snd (run_deploy args w)) = []).
Proof.
  intros He Hset.
  assert (E1 := Hset "S3_BUCKET" (or_introl eq_refl)).
  assert (E2 := Hset "AWS_REGION" (or_intror (or_introl eq_refl))).
  assert (E3 := Hset "CLOUDFRONT_DISTRIBUTION_ID"
                     (or_intror (or_intror (or_introl eq_refl)))).
  script. rewrite He. script.
  destruct (required_set "S3_BUCKET" "S3_BUCKET is not set in .env" w _ [] E1) as [v1 ->].
  script.
  destruct (required_set "AWS_REGION" "AWS_REGION is not set in .env" w _ [] E2) as [v2 ->].
  script.
  destruct (required_set "CLOUDFRONT_DISTRIBUTION_ID"
              "CLOUDFRONT_DISTRIBUTION_ID is not set in .env" w _ [] E3) as [v3 ->].
  script. unfold dist_at_check.
  destruct (skip_build args) eqn:Es; script.
  - split; [discriminate|]. intros _ Hd. rewrite Hd. script. simpl.
    repeat split. auto 20.
  - destruct (rsync_status w =? 0) eqn:Er; script.
    + split; [intros _ Hr; apply Z.eqb_eq in Er; contradiction|].
      intros _ Hd. rewrite Hd. script. simpl. repeat split. auto 30.
    + split; [|intros [H|H]; [discriminate | apply Z.eqb_neq in Er; contradiction]].
      intros _ _. simpl. repeat split.
Qed.

(** In each of the three cases the run fails and uploads nothing. *)
Lemma deploy_fails_without_upload (args : list string) (w : world) :
  env_file w = None \/
  (exists assignments name,
     env_file w = Some assignments /\ In name required_names /\
     unset name w assignments = true) \/
  missing_or_empty (dist_at_check args w) = true ->
  fst (run_deploy args w) <> 0 /\
  filter is_upload (snd (run_deploy args w)) = [].
Proof.
  intros H.
  destruct (env_file w) as [a|] eqn:He.
  - destruct (unset "S3_BUCKET" w a) eqn:E1;
      [destruct (deploy_unset_variable args w a "S3_BUCKET" He
                   (or_introl eq_refl) E1) as (-> & _ & ->); split; [lia | reflexivity]|].
    destruct (unset "AWS_REGION" w a) eqn:E2;
      [destruct (deploy_unset_variable args w a "AWS_REGION" He
                   (or_intror (or_introl eq_refl)) E2) as (-> & _ & ->);
       split; [lia | reflexivity]|].
    destruct (unset "CLOUDFRONT_DISTRIBUTION_ID" w a) eqn:E3;
      [destruct (deploy_unset_variable args w a "CLOUDFRONT_DISTRIBUTION_ID" He
                   (or_intror (or_intror (or_introl eq_refl))) E3) as (-> & _ & ->);
       split; [lia | reflexivity]|].
    assert (Hset : forall name, In name required_names -> unset name w a = false).
    { intros name [<-|[<-|[<-|[]]]]; assumption. }
    destruct H as [H|[(a' & name & Ha' & Hn & Hu)|H]]; [discriminate | |].
    + injection Ha' as <-. rewrite (Hset name Hn) in Hu. discriminate.
    + destruct (deploy_reaches_build args w a He Hset) as [Hfail Hcheck].
      destruct (skip_build args) eqn:Es.
      * destruct (Hcheck (or_introl eq_refl) H) as (-> & _ & ->).
        split; [lia | reflexivity].
      * destruct (Z.eq_dec (rsync_status w) 0) as [Hr|Hr].
        -- destruct (Hcheck (or_intror Hr) H) as (-> & _ & ->).
           split; [lia | reflexivity].
        -- destruct (Hfail eq_refl Hr) as (-> & ->). split; [exact Hr | reflexivity].
  - destruct (deploy_no_env_file args w He) as (-> & _ & ->). split; [lia | reflexivity].
Qed.

End DeployFacts.

(** C9: a run of deploy.sh ends with a non-zero exit status and makes no
    upload when the [.env] file is missing, when one of [S3_BUCKET],
    [AWS_REGION] and [CLOUDFRONT_DISTRIBUTION_ID] is unset (or empty) once
    [.env] has been read, and when dist/ is missing or empty at the time it is
    tested (as found with [--skip-build], as the build leaves it otherwise).
    In each case the script says why: that [.env] was not found; which
    variable is not set; that dist/ is empty.  A build that fails stops the
    run before that test, with the status of the build. *)
Theorem deploy_aborts_before_upload (args : list string) (w : Deploy.world) :
  (Deploy.env_file w = None \/
   (exists assignments name,
      Deploy.env_file w = Some assignments /\ In name Deploy.required_names /\
      Deploy.unset name w assignments = true) \/
   Deploy.missing_or_empty (Deploy.dist_at_check args w) = true ->
   fst (Deploy.run_deploy args w) <> 0%Z /\
   filter Deploy.is_upload (snd (Deploy.run_deploy args w)) = []) /\
  (Deploy.env_file w = None ->
     fst (Deploy.run_deploy args w) = 1%Z /\
     In (Deploy.echo (Deploy.env_not_found w)) (snd (Deploy.run_deploy args w)) /\
     filter Deploy.is_upload (snd (Deploy.run_deploy args w)) = []) /\
  (forall assignments name,
     Deploy.env_file w = Some assignments ->
     In name Deploy.required_names -> Deploy.unset name w assignments = true ->
     fst (Deploy.run_deploy args w) = 1%Z /\
     (exists name', In name' Deploy.required_names /\
                    Deploy.unset name' w assignments = true /\
                    In (Deploy.not_set name') (snd (Deploy.run_deploy args w))) /\
     filter Deploy.is_upload (snd (Deploy.run_deploy args w)) = []) /\
  (forall assignments,
     Deploy.env_file w = Some assignments ->
     (forall name, In name Deploy.required_names ->
                   Deploy.unset name w assignments = false) ->
     (Deploy.skip_build args = true \/ Deploy.rsync_status w = 0%Z) ->
     Deploy.missing_or_empty (Deploy.dist_at_check args w) = true ->
     fst (Deploy.run_deploy args w) = 1%Z /\
     In (Deploy.echo Deploy.dist_is_empty) (snd (Deploy.run_deploy args w)) /\
     filter Deploy.is_upload (snd (Deploy.run_deploy args w)) = []) /\
  (forall assignments,
     Deploy.env_file w = Some assignments ->
     (forall name, In name Deploy.required_names ->
                   Deploy.unset name w assignments = false) ->
     Deploy.skip_build args = false -> Deploy.rsync_status w <> 0%Z ->
     fst (Deploy.run_deploy args w) = Deploy.rsync_status w /\
     filter Deploy.is_upload (snd (Deploy.run_deploy args w)) = []).
Proof.
  split; [apply deploy_fails_without_upload|].
  split; [apply deploy_no_env_file|].
  split; [intros a n; apply deploy_unset_variable|].
  split.
  - intros a He Hs. apply (deploy_reaches_build args w a He Hs).
  - intros a He Hs. apply (deploy_reaches_build args w a He Hs).
Qed.

Lemma deploy_aborts_before_upload_witness :
  fst (Deploy.run_deploy ["--skip-build"%string]
         (calm_world (Some full_env) ["index.html"%string] (Some []))) = 1%Z /\
  In (Deploy.echo Deploy.dist_is_empty)
     (snd (Deploy.run_deploy ["--skip-build"%string]
             (calm_world (Some full_env) ["index.html"%string] (Some [])))) /\
  filter Deploy.is_upload
     (snd (Deploy.run_deploy ["--skip-build"%string]
             (calm_world (Some full_env) ["index.html"%string] (Some [])))) = [].
Proof.
  destruct (deploy_aborts_before_upload ["--skip-build"%string]
              (calm_world (Some full_env) ["index.html"%string] (Some [])))
    as (_ & _ & _ & H & _).
  apply (H full_env).
  - reflexivity.
  - intros name [<-|[<-|[<-|[]]]]; reflexivity.
  - left. reflexivity.
  - reflexivity.
Defined.

(** With the configuration in place and a site to publish, the run ends
    with status 0 after both uploads and the invalidation. *)
Example deploy_succeeds :
  let r := Deploy.run_deploy [] (calm_world (Some full_env) ["index.html"%string] None) in
  fst r = 0%Z /\
  filter Deploy.is_upload (snd r) =
    [Deploy.s3_sync_html "my-bucket" "eu-west-1";
     Deploy.s3_sync_assets "my-bucket" "eu-west-1"] /\
  In (Deploy.create_invalidation "E123") (snd r).
Proof. vm_compute. repeat split. auto 60. Qed.

(** A source directory that holds only [.DS_Store] builds an empty dist/. *)
Example deploy_empty_build :
  let r := Deploy.run_deploy [] (calm_world (Some full_env) [".DS_Store"%string] None) in
  fst r = 1%Z /\ filter Deploy.is_upload (snd r) = [].
Proof. vm_compute. repeat split. Qed.

(** A variable set to the empty string counts as not set. *)
Example deploy_empty_region :
  let env := [("S3_BUCKET", "b"); ("AWS_REGION", EmptyString);
              ("CLOUDFRONT_DISTRIBUTION_ID", "d")]%string in
  Deploy.run_deploy [] (calm_world (Some env) ["index.html"%string] None) =
  (1%Z, [Deploy.not_set "AWS_REGION"]).
Proof. vm_compute. reflexivity. Qed.

(** * Further properties *)

(** ** throttle, for any limit *)

Section ThrottleFacts.

Local Open Scope Z_scope.

Lemma fires_sublist (limit : Z) (nows : list Z) (last : Z) :
  sublist (fires limit last nows) nows.
Proof.
  revert last. induction nows as [|now nows IH]; intros last; simpl.
  - constructor.
  - destruct (limit <=? now - last); constructor; apply IH.
Qed.

(** X1: for any limit that is not negative and any calls, the runs of a
    throttled callback are some of the calls, in their order; the first comes
    at least [limit] after the initial [last] and any two are at least [limit]
    apart. *)
Theorem throttle_runs_spaced (limit last : Z) (nows : list Z) :
  0 <= limit ->
  sublist (fire_times limit last nows) nows /\
  Forall (fun t => last + limit <= t) (fire_times limit last nows) /\
  StronglySorted (fun a b => a + limit <= b) (fire_times limit last nows).
Proof.
  intros Hl. rewrite fire_times_fires.
  split; [apply fires_sublist | apply fires_spaced, Hl].
Qed.

Lemma throttle_runs_spaced_witness :
  sublist (fire_times 80 0 [1000; 1010; 1090; 1200]%Z) [1000; 1010; 1090; 1200]%Z.
Proof.
  apply (throttle_runs_spaced 80 0 [1000; 1010; 1090; 1200]%Z). lia.
Defined.

Example scroll_burst : fire_times 80 0 [1000; 1010; 1090; 1200]%Z = [1000; 1090; 1200]%Z.
Proof. reflexivity. Qed.

Lemma fires_app (limit : Z) (l1 l2 : list Z) (last : Z) :
  fires limit last (l1 ++ l2) =
  fires limit last l1 ++ fires limit (last_after limit last l1) l2.
Proof.
  revert last. induction l1 as [|a l1 IH]; intros last; simpl; [reflexivity|].
  destruct (limit <=? a - last); simpl; rewrite IH; reflexivity.
Qed.

Lemma last_after_bound (limit : Z) (nows : list Z) (last m : Z) :
  last <= m -> Forall (fun t => t <= m) nows -> last_after limit last nows <= m.
Proof.
  revert last. induction nows as [|a l IH]; intros last Hl Hf; simpl; [exact Hl|].
  inversion Hf as [|? ? Ha Hf']; subst.
  destruct (limit <=? a - last); apply IH; assumption.
Qed.

(** X2: a call that comes at least [limit] after the initial [last] and
    after every earlier call is run, whatever was dropped before it, and the
    throttle goes on from it. *)
Theorem throttle_runs_late_call (limit last : Z) (before after : list Z) (now : Z) :
  last + limit <= now ->
  Forall (fun t => t + limit <= now) before ->
  fire_times limit last (before ++ now :: after) =
  fire_times limit last before ++ now :: fire_times limit now after.
Proof.
  intros Hl Hb. rewrite !fire_times_fires, fires_app. f_equal. simpl.
  assert (H : last_after limit last before <= now - limit).
  { apply last_after_bound; [lia|]. eapply Forall_impl; [|exact Hb]. simpl. intros; lia. }
  destruct (limit <=? now - last_after limit last before) eqn:E;
    [reflexivity | apply Z.leb_gt in E; lia].
Qed.

Lemma throttle_runs_late_call_witness :
  fire_times 200 0 ([1000; 1100] ++ 1300 :: [1350])%Z =
  (fire_times 200 0 [1000; 1100] ++ 1300 :: fire_times 200 1300 [1350])%Z.
Proof.
  apply (throttle_runs_late_call 200 0 [1000; 1100]%Z [1350]%Z 1300).
  - lia.
  - repeat constructor; lia.
Defined.

Lemma last_after_muted (limit last : Z) (nows : list Z) :
  Forall (fun t => (t < last + limit)%Z) nows -> last_after limit last nows = last.
Proof.
  intros H. induction H as [|a l Ha _ IH]; simpl; [reflexivity|].
  destruct (limit <=? a - last)%Z eqn:E; [apply Z.leb_le in E; lia | exact IH].
Qed.

Lemma fires_muted (limit last : Z) (nows : list Z) :
  Forall (fun t => (t < last + limit)%Z) nows -> fires limit last nows = [].
Proof.
  intros H. induction H as [|a l Ha _ IH]; simpl; [reflexivity|].
  destruct (limit <=? a - last)%Z eqn:E; [apply Z.leb_le in E; lia | exact IH].
Qed.

(** X3: as long as the clock reads less than [last + limit] every call is
    dropped, also when the clock was set back after a run; the first call at
    or after [last + limit] is the first to run. *)
Theorem throttle_first_run (limit last now : Z) (before after : list Z) :
  Forall (fun t => (t < last + limit)%Z) before ->
  fire_times limit last before = [] /\
  ((last + limit <= now)%Z ->
   fire_times limit last (before ++ now :: after) = now :: fire_times limit now after).
Proof.
  intros Hb. rewrite !fire_times_fires. split; [apply fires_muted, Hb|].
  intros Hn. rewrite fires_app, (fires_muted _ _ _ Hb), (last_after_muted _ _ _ Hb).
  simpl. destruct (limit <=? now - last)%Z eqn:E; [|apply Z.leb_gt in E; lia].
  reflexivity.
Qed.

Lemma throttle_first_run_witness :
  fire_times 200 5000 [4000; 4100; 5100]%Z = [].
Proof.
  apply (throttle_first_run 200 5000 0 [4000; 4100; 5100]%Z []).
  repeat constructor; lia.
Defined.

End ThrottleFacts.

(** ** What is drawn *)

Lemma interpolateColor_blend (t : Q) : 0 <= t -> t <= 1 -> blend (interpolateColor t).
Proof.
  intros H0 H1. unfold blend.
  assert (Hr0 : RGB.r (interpolateColor 0) = 124%Z) by reflexivity.
  assert (Hr1 : RGB.r (interpolateColor 1) = 34%Z) by reflexivity.
  assert (Hg0 : RGB.g (interpolateColor 0) = 109%Z) by reflexivity.
  assert (Hg1 : RGB.g (interpolateColor 1) = 211%Z) by reflexivity.
  assert (Hb0 : RGB.b (interpolateColor 0) = 250%Z) by reflexivity.
  assert (Hb1 : RGB.b (interpolateColor 1) = 238%Z) by reflexivity.
  assert (A : forall a b, b <= a ->
            (Math_round (lerp a b 1) <= Math_round (lerp a b t) <= Math_round (lerp a b 0))%Z).
  { intros a b Hab. split; apply Math_round_mono, lerp_anti; assumption. }
  assert (M : forall a b, a <= b ->
            (Math_round (lerp a b 0) <= Math_round (lerp a b t) <= Math_round (lerp a b 1))%Z).
  { intros a b Hab. split; apply Math_round_mono, lerp_mono; assumption. }
  pose proof (A 124 34 ltac:(apply Qle_bool_iff; reflexivity)) as Hr.
  pose proof (M 109 211 ltac:(apply Qle_bool_iff; reflexivity)) as Hg.
  pose proof (A 250 238 ltac:(apply Qle_bool_iff; reflexivity)) as Hb.
  change (Math_round (lerp 124 34 t)) with (RGB.r (interpolateColor t)) in Hr.
  change (Math_round (lerp 109 211 t)) with (RGB.g (interpolateColor t)) in Hg.
  change (Math_round (lerp 250 238 t)) with (RGB.b (interpolateColor t)) in Hb.
  change (Math_round (lerp 124 34 1)) with 34%Z in Hr.
  change (Math_round (lerp 124 34 0)) with 124%Z in Hr.
  change (Math_round (lerp 109 211 0)) with 109%Z in Hg.
  change (Math_round (lerp 109 211 1)) with 211%Z in Hg.
  change (Math_round (lerp 250 238 1)) with 238%Z in Hb.
  change (Math_round (lerp 250 238 0)) with 250%Z in Hb.
  lia.
Qed.

Lemma new_fresh (width height : Q) (g : rng) :
  unit_draws g -> fresh_attributes (fst (Particle.new width height g)).
Proof.
  intros Hg. unfold Particle.new. rewrite reset_fields. unfold fresh_attributes. simpl.
  pose proof (Hg (S (S (cursor g)))) as [H2 H2'].
  pose proof (Hg (S (S (S (cursor g))))) as [H3 H3'].
  pose proof (Hg (S (S (S (S (cursor g)))))) as [H4 H4'].
  pose proof (Hg (S (S (S (S (S (cursor g))))))) as [H5 H5'].
  repeat split; lra.
Qed.

Lemma new_particles_fresh (n : nat) (width height : Q) (g : rng) :
  unit_draws g ->
  Forall fresh_attributes (fst (new_particles n width height g)) /\
  draws (snd (new_particles n width height g)) = draws g /\
  cursor (snd (new_particles n width height g)) = (cursor g + 6 * n)%nat.
Proof.
  intros Hg. revert g Hg. induction n as [|n IH]; intros g Hg.
  - simpl. repeat split; [constructor | lia].
  - simpl. unfold bind.
    pose proof (new_fresh width height g Hg) as Hp.
    unfold Particle.new in *. rewrite reset_fields in *.
    assert (Hg1 : unit_draws (mkRng (draws g) (6 + cursor g))) by exact Hg.
    destruct (IH _ Hg1) as (Hf & Hd & Hc).
    destruct (new_particles n width height _) as [ps g2].
    simpl in *. repeat split; [constructor; assumption | exact Hd | lia].
Qed.

Lemma move_fresh (width height : Q) (p : Particle.state) :
  fresh_attributes p -> fresh_attributes (Particle.move width height p).
Proof. intros H. exact H. Qed.

Lemma buildParticles_random (s : canvas) :
  unit_draws (random s) ->
  Forall fresh_attributes (particles (buildParticles s)) /\
  draws (random (buildParticles s)) = draws (random s) /\
  cursor (random (buildParticles s)) =
    (cursor (random s) + 6 * Z.to_nat (PARTICLE_COUNT s))%nat.
Proof.
  intros Hg. unfold buildParticles.
  destruct (new_particles_fresh (Z.to_nat (PARTICLE_COUNT s)) (width s) (height s)
              (random s) Hg) as (Hf & Hd & Hc).
  destruct (new_particles _ _ _ _) as [ps g]. simpl in *. auto.
Qed.

Lemma unit_draws_same (g g' : rng) : draws g' = draws g -> unit_draws g -> unit_draws g'.
Proof. unfold unit_draws. intros -> H. exact H. Qed.

Section Limits.

Variable Math_sqrt : Q -> Q.
Hypothesis Math_sqrt_nonneg : forall q : Q, 0 <= Math_sqrt q.

Lemma connect_in_limits (pi pj : Particle.state) (o : op) :
  fresh_attributes pi -> fresh_attributes pj ->
  connect Math_sqrt pi pj = Some o -> op_in_limits o.
Proof.
  intros Hi Hj Hc. apply connect_Some in Hc. destruct Hc as [Hd ->].
  unfold fresh_attributes in Hi, Hj.
  destruct Hi as (_ & _ & _ & _ & _ & _ & Hi0 & Hi1).
  destruct Hj as (_ & _ & _ & _ & _ & _ & Hj0 & Hj1).
  pose proof (Math_sqrt_nonneg
    ((Particle.x pi - Particle.x pj) * (Particle.x pi - Particle.x pj) +
     (Particle.y pi - Particle.y pj) * (Particle.y pi - Particle.y pj))) as Hn.
  fold (distance Math_sqrt pi pj) in Hn.
  simpl. rewrite line_alpha_linear.
  split; [lra|]. split; [lra|]. split; [|reflexivity].
  apply interpolateColor_blend.
  - apply Qle_shift_div_l; lra.
  - apply Qle_shift_div_r; lra.
Qed.

Lemma frame_fresh (s : canvas) : field_fresh s -> field_fresh (frame Math_sqrt s).
Proof.
  intros (Hg & Hp & Hc). unfold field_fresh.
  change (random (frame Math_sqrt s)) with (random s).
  rewrite frame_particles.
  set (ps := map (Particle.move (width s) (height s)) (particles s)).
  assert (Hps : Forall fresh_attributes ps).
  { apply Forall_map. eapply Forall_impl; [|exact Hp]. intros p. apply move_fresh. }
  split; [exact Hg|]. split; [exact Hps|].
  change (ctx (frame Math_sqrt s)) with
    (ctx s ++ [clearRect 0 0 (width s) (height s)]
       ++ map Particle.draw ps ++ map snd (drawLines Math_sqrt ps)).
  apply Forall_app. split; [exact Hc|].
  apply Forall_app. split; [repeat constructor|].
  apply Forall_app. split.
  - apply Forall_map. eapply Forall_impl; [|exact Hps].
    intros p (_ & _ & _ & _ & Hr0 & Hr1 & Ht0 & Ht1). simpl.
    split; [exact Hr0|]. split; [exact Hr1|]. split; [|reflexivity].
    apply interpolateColor_blend; lra.
  - apply Forall_forall. intros o Ho.
    apply in_map_iff in Ho. destruct Ho as ([[i j] l] & <- & Ho).
    apply drawLines_In in Ho. destruct Ho as (pi & pj & _ & Hi & Hj & Hc').
    apply nth_error_In in Hi, Hj.
    rewrite Forall_forall in Hps.
    apply (connect_in_limits pi pj); auto.
Qed.

Lemma step_fresh (s : canvas) (e : event) :
  field_fresh s -> field_fresh (step Math_sqrt s e).
Proof.
  intros Hs. destruct e as [v now|h|]; simpl.
  - unfold on_resize, throttle. simpl.
    destruct (200 <=? now - last s)%Z; [|exact Hs].
    destruct Hs as (Hg & _ & Hc).
    destruct (buildParticles_random (resize (set_window v s)) Hg) as (B1 & B2 & B3).
    destruct (buildParticles_page (resize (set_window v s))) as (_ & _ & B4).
    split; [|split].
    + simpl. apply (unit_draws_same (random s)); [exact B2 | exact Hg].
    + exact B1.
    + simpl. rewrite B4. exact Hc.
  - unfold on_visibilitychange. simpl.
    destruct h; [destruct (animId s)|]; exact Hs.
  - unfold run_callbacks. apply callbacks_fold; [apply frame_fresh | exact Hs].
Qed.

Lemma run_fresh (es : list event) (s : canvas) :
  field_fresh s -> field_fresh (run Math_sqrt s es).
Proof.
  revert s. induction es as [|e es IH]; intros s Hs; simpl; [exact Hs|].
  apply IH, step_fresh, Hs.
Qed.

Lemma initCanvas_fresh (v : viewport) (h : bool) (g : rng) :
  unit_draws g -> field_fresh (initCanvas Math_sqrt v h g).
Proof.
  intros Hg. unfold initCanvas. apply frame_fresh.
  match goal with |- field_fresh (buildParticles ?s) =>
    destruct (buildParticles_random s Hg) as (B1 & B2 & B3);
    destruct (buildParticles_page s) as (_ & _ & B4) end.
  split; [|split].
  - apply (unit_draws_same g); [exact B2 | exact Hg].
  - exact B1.
  - rewrite B4. constructor.
Qed.

End Limits.

(** X4: with draws in [[0, 1)] and a [Math.sqrt] that is never negative,
    whatever the events, every particle keeps a velocity in [[-0.225, 0.225]]
    on each axis, a radius in [[0.8, 2.6)] and a colour factor in [[0, 1)],
    and everything ever drawn is a clear from the origin, a circle of such a
    radius at alpha 0.65, or a line 0.8 wide at an alpha in [(0, 0.18]], each
    in a colour whose channels lie between those of ACCENT and CYAN. *)
Theorem drawing_within_limits (Math_sqrt : Q -> Q) (v : viewport) (h : bool) (g : rng)
    (es : list event) :
  (forall q : Q, 0 <= Math_sqrt q) -> unit_draws g ->
  Forall fresh_attributes (particles (run Math_sqrt (initCanvas Math_sqrt v h g) es)) /\
  Forall op_in_limits (ctx (run Math_sqrt (initCanvas Math_sqrt v h g) es)).
Proof.
  intros Hq Hg.
  destruct (run_fresh Math_sqrt Hq es _ (initCanvas_fresh Math_sqrt Hq v h g Hg))
    as (_ & H1 & H2).
  split; assumption.
Qed.

Lemma sqrt_floor_nonneg (q : Q) : 0 <= sqrt_floor q.
Proof.
  unfold sqrt_floor. change 0 with (inject_Z 0). rewrite <- Zle_Qle. apply Z.sqrt_nonneg.
Qed.

Lemma drawing_within_limits_witness :
  Forall op_in_limits
    (ctx (run sqrt_floor
            (initCanvas sqrt_floor (window_of_width 48) false (constant_draws (1 # 2)))
            [AnimationFrame; Resize (window_of_width 64) 1000; AnimationFrame])).
Proof.
  apply (drawing_within_limits sqrt_floor (window_of_width 48) false (constant_draws (1 # 2))
           [AnimationFrame; Resize (window_of_width 64) 1000; AnimationFrame]).
  - apply sqrt_floor_nonneg.
  - intros n. simpl. lra.
Defined.






(** ** The use of randomness *)

Lemma new_particles_cursor (n : nat) (width height : Q) (g : rng) :
  draws (snd (new_particles n width height g)) = draws g /\
  cursor (snd (new_particles n width height g)) = (cursor g + 6 * n)%nat.
Proof.
  revert g. induction n as [|n IH]; intros g.
  - simpl. split; [reflexivity | lia].
  - simpl. unfold bind. unfold Particle.new. rewrite reset_fields.
    destruct (IH (mkRng (draws g) (6 + cursor g))) as (Hd & Hc).
    destruct (new_particles n width height _) as [ps g2].
    simpl in *. split; [exact Hd | lia].
Qed.

Lemma buildParticles_advanced (g : rng) (k : nat) (s : canvas) :
  advanced g k s ->
  advanced g (k + 6 * Z.to_nat (PARTICLE_COUNT s)) (buildParticles s).
Proof.
  intros [Hd Hc]. unfold advanced, buildParticles.
  destruct (new_particles_cursor (Z.to_nat (PARTICLE_COUNT s)) (width s) (height s)
              (random s)) as (Nd & Nc).
  destruct (new_particles _ _ _ _) as [ps g']. simpl in *.
  split; [congruence | lia].
Qed.

Section Random.

Variable Math_sqrt : Q -> Q.

Lemma step_advanced (g : rng) (k : nat) (c : Z) (s : canvas) (e : event) :
  PARTICLE_COUNT s = c -> advanced g k s ->
  PARTICLE_COUNT (step Math_sqrt s e) = c /\
  advanced g (k + (if rebuilds s e then 6 * Z.to_nat c else 0)) (step Math_sqrt s e).
Proof.
  intros Hc Ha. destruct e as [v now|h|]; simpl.
  - unfold on_resize, throttle. simpl.
    destruct (200 <=? now - last s)%Z; simpl.
    + destruct (buildParticles_count (resize (set_window v s))) as [Hc' _].
      split; [rewrite Hc'; exact Hc|].
      rewrite <- Hc.
      apply (buildParticles_advanced g k (resize (set_window v s))). exact Ha.
    + split; [exact Hc|]. rewrite Nat.add_0_r. exact Ha.
  - rewrite Nat.add_0_r. unfold on_visibilitychange. simpl.
    destruct h; [destruct (animId s)|]; split; assumption.
  - rewrite Nat.add_0_r. unfold run_callbacks.
    apply (callbacks_fold Math_sqrt
             (fun s' => PARTICLE_COUNT s' = c /\ advanced g k s')).
    + intros s' H. exact H.
    + split; assumption.
Qed.

Lemma run_advanced (g : rng) (c : Z) (es : list event) (k : nat) (s : canvas) :
  PARTICLE_COUNT s = c -> advanced g k s ->
  advanced g (k + 6 * Z.to_nat c * rebuilds_in Math_sqrt s es) (run Math_sqrt s es).
Proof.
  revert k s. induction es as [|e es IH]; intros k s Hc Ha; simpl.
  - rewrite Nat.mul_0_r, Nat.add_0_r. exact Ha.
  - destruct (step_advanced g k c s e Hc Ha) as [Hc' Ha'].
    specialize (IH _ _ Hc' Ha').
    destruct (rebuilds s e);
      match goal with H : advanced g ?a ?s |- advanced g ?b ?s =>
        replace b with a by lia; exact H end.
Qed.

End Random.

(** X6: only the building of the particle set draws random numbers, six
    for each particle: after any events the random source has advanced by
    [6 * PARTICLE_COUNT] draws for the startup and for each rebuild on resize,
    and by nothing else; frames and visibility changes draw none. *)
Theorem randomness_only_on_rebuild (Math_sqrt : Q -> Q) (v : viewport) (h : bool)
    (g : rng) (es : list event) :
  0 <= innerWidth v ->
  let s0 := initCanvas Math_sqrt v h g in
  let s := run Math_sqrt s0 es in
  draws (random s) = draws g /\
  Z.of_nat (cursor (random s)) =
    (Z.of_nat (cursor g) +
     6 * Z.min 70 (Qfloor (innerWidth v / 16)) *
       (1 + Z.of_nat (rebuilds_in Math_sqrt s0 es)))%Z.
Proof.
  intros Hv s0 s.
  pose proof (particle_count_range v Hv) as Hr.
  assert (H0 : PARTICLE_COUNT s0 = particle_count v /\
               advanced g (6 * Z.to_nat (particle_count v)) s0).
  { unfold s0, initCanvas.
    match goal with |- PARTICLE_COUNT (frame _ (buildParticles ?s)) = _ /\ _ =>
      destruct (buildParticles_count s) as [Hc _];
      pose proof (buildParticles_advanced g 0 s (conj eq_refl (eq_sym (Nat.add_0_r _))))
        as Ha end.
    split; [exact Hc | exact Ha]. }
  destruct H0 as [Hc Ha].
  destruct (run_advanced Math_sqrt g _ es _ s0 Hc Ha) as [Hd Hk].
  fold s in Hd, Hk. split; [exact Hd|].
  rewrite Hk. unfold particle_count, Math_min, Math_floor in *.
  rewrite !Nat2Z.inj_add, !Nat2Z.inj_mul, Z2Nat.id by lia. simpl Z.of_nat. lia.
Qed.

Lemma randomness_only_on_rebuild_witness :
  Z.of_nat (cursor (random
     (run sqrt_floor (initCanvas sqrt_floor (window_of_width 48) false (constant_draws 0))
          [AnimationFrame; Resize (window_of_width 64) 1000; AnimationFrame;
           Resize (window_of_width 80) 1100]))) =
  (Z.of_nat (cursor (constant_draws 0)) +
   6 * Z.min 70 (Qfloor (innerWidth (window_of_width 48) / 16)) *
     (1 + Z.of_nat (rebuilds_in sqrt_floor
                      (initCanvas sqrt_floor (window_of_width 48) false (constant_draws 0))
                      [AnimationFrame; Resize (window_of_width 64) 1000; AnimationFrame;
                       Resize (window_of_width 80) 1100])))%Z.
Proof.
  apply (randomness_only_on_rebuild sqrt_floor (window_of_width 48) false (constant_draws 0)
           [AnimationFrame; Resize (window_of_width 64) 1000; AnimationFrame;
            Resize (window_of_width 80) 1100]).
  simpl. lra.
Defined.

(** ** The frame requests *)

Lemma loops_requests (s s' : canvas) : requests s' = requests s -> loops s -> loops s'.
Proof.
  unfold requests, loops. intros H. injection H as -> -> -> ->. auto.
Qed.

Section Loops.

Variable Math_sqrt : Q -> Q.

Lemma frame_requests (s : canvas) :
  requests (frame Math_sqrt s) =
  (hidden s, callbacks s ++ [next_handle s], S (next_handle s), Some (next_handle s)).
Proof. reflexivity. Qed.

Lemma buildParticles_requests (s : canvas) : requests (buildParticles s) = requests s.
Proof. unfold buildParticles. destruct (new_particles _ _ _ _). reflexivity. Qed.

Lemma on_resize_requests (now : Z) (v : viewport) (s : canvas) :
  requests (on_resize now (set_window v s)) = requests s.
Proof.
  unfold on_resize, throttle. cbn [last set_window].
  destruct (200 <=? now - last s)%Z; [|reflexivity].
  change (requests (set_last now ?x)) with (requests x).
  rewrite buildParticles_requests. reflexivity.
Qed.

Lemma show_requests (s : canvas) :
  requests (on_visibilitychange (set_hidden false s)) =
  (false, callbacks s ++ [next_handle s], S (next_handle s), Some (next_handle s)).
Proof. reflexivity. Qed.

Lemma hide_requests (s : canvas) :
  requests (on_visibilitychange (set_hidden true s)) =
  (true,
   match animId s with
   | Some h => filter (fun k => negb (Nat.eqb k h)) (callbacks s)
   | None => callbacks s
   end, next_handle s, animId s).
Proof.
  unfold on_visibilitychange. cbn [hidden set_hidden].
  change (animId (set_hidden true s)) with (animId s).
  destruct (animId s) as [n|] eqn:E; unfold requests; cbn; rewrite E; reflexivity.
Qed.

Lemma frame_fields (s : canvas) :
  hidden (frame Math_sqrt s) = hidden s /\
  callbacks (frame Math_sqrt s) = callbacks s ++ [next_handle s] /\
  next_handle (frame Math_sqrt s) = S (next_handle s) /\
  animId (frame Math_sqrt s) = Some (next_handle s).
Proof. repeat split. Qed.

Lemma run_callbacks_requests (s : canvas) :
  (callbacks s = [] ->
   requests (run_callbacks Math_sqrt s) = (hidden s, [], next_handle s, animId s)) /\
  (forall a, callbacks s = [a] ->
   requests (run_callbacks Math_sqrt s) =
   (hidden s, [next_handle s], S (next_handle s), Some (next_handle s))) /\
  (forall a b, callbacks s = [a; b] ->
   requests (run_callbacks Math_sqrt s) =
   (hidden s, [next_handle s; S (next_handle s)], S (S (next_handle s)),
    Some (S (next_handle s)))).
Proof.
  unfold run_callbacks. split; [|split].
  - intros ->. reflexivity.
  - intros a ->. cbn [fold_left]. rewrite frame_requests. reflexivity.
  - intros a b ->. cbn [fold_left].
    set (s0 := set_callbacks [] (next_handle s) s).
    destruct (frame_fields s0) as (H1 & H2 & H3 & H4).
    destruct (frame_fields (frame Math_sqrt s0)) as (G1 & G2 & G3 & G4).
    unfold requests. rewrite G1, G2, G3, G4, H1, H2, H3. reflexivity.
Qed.

Lemma Forall_lt_S (l : list nat) (n : nat) :
  Forall (fun a => (a < n)%nat) l -> Forall (fun a => (a < S n)%nat) l.
Proof. intros H. eapply Forall_impl; [|exact H]. simpl. intros; lia. Qed.

Lemma loops_of (h : bool) (cbs : list nat) (n : nat) (a : option nat) (s : canvas) :
  requests s = (h, cbs, n, a) ->
  Forall (fun k => (k < n)%nat) cbs ->
  (if h then (length cbs <= 1)%nat
   else (exists x, cbs = [x] /\ a = Some x) \/
        (exists x y, x <> y /\ cbs = [x; y] /\ a = Some y)) ->
  loops s.
Proof.
  unfold requests, loops. intros H. injection H as -> -> -> ->. auto.
Qed.

Lemma step_loops (s : canvas) (e : event) :
  loops s -> alternating (hidden s) [e] -> loops (step Math_sqrt s e).
Proof.
  intros Hl Ha. destruct e as [v now|h|]; cbn [step].
  - apply (loops_requests s); [apply on_resize_requests | exact Hl].
  - destruct Ha as [-> _]. destruct Hl as [Hb Hl].
    destruct (hidden s); cbn [negb].
    + eapply loops_of; [apply show_requests | |].
      * apply Forall_app. split; [apply Forall_lt_S, Hb | repeat constructor].
      * destruct (callbacks s) as [|a [|b l]]; cbn [length app] in *.
        -- left. eauto.
        -- right. exists a, (next_handle s). repeat split.
           inversion Hb; subst. lia.
        -- lia.
    + eapply loops_of; [apply hide_requests | |].
      * destruct (animId s); [|exact Hb].
        apply Forall_forall. intros k Hk. apply filter_In in Hk.
        rewrite Forall_forall in Hb. apply Hb, Hk.
      * destruct Hl as [(a & Hc & Hi)|(a & b & Hab & Hc & Hi)]; rewrite Hi, Hc;
          cbn [filter].
        -- rewrite Nat.eqb_refl. cbn. lia.
        -- rewrite Nat.eqb_refl.
           destruct (Nat.eqb a b) eqn:E; [apply Nat.eqb_eq in E; contradiction|].
           cbn. lia.
  - destruct Hl as [Hb Hl].
    destruct (run_callbacks_requests s) as (R0 & R1 & R2).
    destruct (hidden s) eqn:Hh.
    + destruct (callbacks s) as [|a [|b l]] eqn:Ec; cbn [length] in Hl; [| |lia].
      * eapply loops_of; [apply R0; reflexivity | constructor | cbn; lia].
      * eapply loops_of; [apply (R1 a); reflexivity | repeat constructor | cbn; lia].
    + destruct Hl as [(a & Hc & Hi)|(a & b & Hab & Hc & Hi)].
      * eapply loops_of; [apply (R1 a Hc) | repeat constructor | left; eauto].
      * eapply loops_of; [apply (R2 a b Hc) | repeat constructor; lia |].
        right. exists (next_handle s), (S (next_handle s)). repeat split. lia.
Qed.

Lemma run_loops (es : list event) (s : canvas) :
  loops s -> alternating (hidden s) es -> loops (run Math_sqrt s es).
Proof.
  revert s. induction es as [|e es IH]; intros s Hg Ha; [exact Hg|].
  change (run Math_sqrt s (e :: es)) with (run Math_sqrt (step Math_sqrt s e) es).
  apply IH.
  - apply step_loops; [exact Hg|]. destruct e; cbn in *; tauto.
  - rewrite step_hidden. destruct e; cbn in *; tauto.
Qed.

Lemma initCanvas_loops (v : viewport) (h : bool) (g : rng) :
  loops (initCanvas Math_sqrt v h g).
Proof.
  unfold initCanvas.
  match goal with |- loops (frame _ (buildParticles ?s)) =>
    pose proof (frame_requests (buildParticles s)) as Hf;
    pose proof (buildParticles_requests s) as Hb end.
  unfold requests in Hb. injection Hb as Hb1 Hb2 Hb3 Hb4.
  rewrite Hb1, Hb2, Hb3 in Hf. cbn in Hf.
  eapply loops_of; [exact Hf | repeat constructor |].
  destruct h; [cbn; lia | left; eauto].
Qed.

End Loops.

(** X7: whether the script starts in a visible or in a hidden page, when
    every visibility event reports a change there are never more than two
    frame requests pending, never more than one while the page is hidden, and
    always at least one while the page is visible, the one kept in [animId]
    among them: the animation never stops on a visible page. *)
Theorem frame_loops_bounded (Math_sqrt : Q -> Q) (v : viewport) (h : bool) (g : rng)
    (es : list event) :
  alternating h es ->
  let s := run Math_sqrt (initCanvas Math_sqrt v h g) es in
  (length (callbacks s) <= 2)%nat /\
  (hidden s = true -> (length (callbacks s) <= 1)%nat) /\
  (hidden s = false -> (1 <= length (callbacks s))%nat /\
                       exists a, animId s = Some a /\ In a (callbacks s)).
Proof.
  intros Ha s.
  assert (H : loops s).
  { apply run_loops; [apply initCanvas_loops|]. rewrite initCanvas_hidden. exact Ha. }
  destruct H as [Hb Hl].
  destruct (hidden s).
  - repeat split; try lia; discriminate.
  - destruct Hl as [(a & -> & ->)|(a & b & Hab & -> & ->)]; cbn [length].
    + repeat split; try lia; try discriminate. exists a. split; [reflexivity | left; reflexivity].
    + repeat split; try lia; try discriminate.
      exists b. split; [reflexivity | right; left; reflexivity].
Qed.

Lemma frame_loops_bounded_witness :
  (length (callbacks
     (run sqrt_floor (initCanvas sqrt_floor (window_of_width 32) true (constant_draws 0))
          [VisibilityChange false; AnimationFrame; VisibilityChange true;
           VisibilityChange false; AnimationFrame])) <= 2)%nat.
Proof.
  apply (frame_loops_bounded sqrt_floor (window_of_width 32) true (constant_draws 0)
           [VisibilityChange false; AnimationFrame; VisibilityChange true;
            VisibilityChange false; AnimationFrame]).
  simpl. repeat split.
Defined.

(** ** deploy.sh: the whole run *)

Section DeployMore.

Import Deploy.
Local Open Scope string_scope.
Local Open Scope Z_scope.

Ltac script :=
  cbv beta iota zeta delta
    [run_deploy deploy build andthen the_world say act exit pure source
     tool set_dist fs vars trace dist_after_deploy];
  cbn [dist_dir root_dir env_file environ src_dir
       rsync_status sync_html_status sync_assets_status invalidation].

Lemma required_value (name message : string) (w : world) (vs : list (string * string))
    (log : list action) (v : string) :
  lookup name vs = Some v -> v <> EmptyString ->
  required name message (mkShell w vs log) = (go v, mkShell w vs log).
Proof.
  intros H Hv. unfold required. cbn [vars]. rewrite H.
  destruct (String.eqb v EmptyString) eqn:E; [apply String.eqb_eq in E; contradiction|].
  reflexivity.
Qed.

Lemma configured_or_unset (w : world) (a : list (string * string)) :
  (exists b r d, configured w a b r d) \/
  (exists name, In name required_names /\ unset name w a = true).
Proof.
  unfold configured, resolved, unset.
  set (vs := fold_left (fun vs a => a :: vs) a (environ w)).
  assert (H : forall name,
            (exists v, lookup name vs = Some v /\ v <> EmptyString) \/
            match lookup name vs with Some v => String.eqb v EmptyString | None => true end
              = true).
  { intros name. destruct (lookup name vs) as [v|]; [|right; reflexivity].
    destruct (String.eqb v EmptyString) eqn:E; [right; reflexivity|].
    left. exists v. split; [reflexivity|]. apply String.eqb_neq, E. }
  destruct (H "S3_BUCKET") as [(b & Hb & Hb')|Hb];
    [|right; exists "S3_BUCKET"; split; [left; reflexivity | exact Hb]].
  destruct (H "AWS_REGION") as [(r & Hr & Hr')|Hr];
    [|right; exists "AWS_REGION"; split; [right; left; reflexivity | exact Hr]].
  destruct (H "CLOUDFRONT_DISTRIBUTION_ID") as [(d & Hd & Hd')|Hd];
    [|right; exists "CLOUDFRONT_DISTRIBUTION_ID";
      split; [right; right; left; reflexivity | exact Hd]].
  left. exists b, r, d. repeat split; assumption.
Qed.

(** What a run does once its checks have passed. *)
Lemma deploy_publishes (args : list string) (w : world) (a : list (string * string))
    (b r d : string) :
  env_file w = Some a -> configured w a b r d ->
  skip_build args = true \/ rsync_status w = 0 ->
  missing_or_empty (dist_at_check args w) = false ->
  filter is_aws (snd (run_deploy args w)) =
    (s3_sync_html b r ::
     if sync_html_status w =? 0
     then s3_sync_assets b r ::
          (if sync_assets_status w =? 0 then [create_invalidation d] else [])
     else []) /\
  fst (run_deploy args w) =
    (if sync_html_status w =? 0
     then if sync_assets_status w =? 0 then fst (invalidation w)
          else sync_assets_status w
     else sync_html_status w) /\
  dist_after_deploy args w = dist_at_check args w.
Proof.
  intros He (Hb & Hb' & Hr & Hr' & Hd & Hd') Hbuild Hdist.
  unfold resolved in *.
  script. rewrite He. script.
  rewrite (required_value _ _ _ _ _ b Hb Hb'). script.
  rewrite (required_value _ _ _ _ _ r Hr Hr'). script.
  rewrite (required_value _ _ _ _ _ d Hd Hd'). script.
  unfold dist_at_check in *.
  destruct (skip_build args) eqn:Es; cbn [negb]; script.
  - rewrite Hdist. script.
    destruct (sync_html_status w =? 0); script; [|simpl; auto].
    destruct (sync_assets_status w =? 0); script; [|simpl; auto].
    destruct (fst (invalidation w) =? 0) eqn:Ei; script; simpl;
      repeat split; try reflexivity.
    apply Z.eqb_eq in Ei. congruence.
  - destruct Hbuild as [Hs|Hrs]; [discriminate|]. rewrite Hrs. script.
    change (0 =? 0) with true. script.
    rewrite Hdist. script.
    destruct (sync_html_status w =? 0); script; [|simpl; auto].
    destruct (sync_assets_status w =? 0); script; [|simpl; auto].
    destruct (fst (invalidation w) =? 0) eqn:Ei; script; simpl;
      repeat split; try reflexivity.
    apply Z.eqb_eq in Ei. congruence.
Qed.

Lemma configured_set (w : world) (a : list (string * string)) (b r d : string) :
  configured w a b r d ->
  forall name, In name required_names -> unset name w a = false.
Proof.
  intros (Hb & Hb' & Hr & Hr' & Hd & Hd') name Hn.
  unfold resolved in *. unfold unset.
  destruct Hn as [<-|[<-|[<-|[]]]].
  - rewrite Hb. apply String.eqb_neq, Hb'.
  - rewrite Hr. apply String.eqb_neq, Hr'.
  - rewrite Hd. apply String.eqb_neq, Hd'.
Qed.

(** dist/ on the ways a run can stop before the upload. *)
Lemma deploy_dist_early (args : list string) (w : world) :
  (env_file w = None -> dist_after_deploy args w = dist_dir w) /\
  (forall a name, env_file w = Some a -> In name required_names ->
     unset name w a = true -> dist_after_deploy args w = dist_dir w) /\
  (forall a b r d, env_file w = Some a -> configured w a b r d ->
     skip_build args = true \/ rsync_status w = 0 ->
     missing_or_empty (dist_at_check args w) = true ->
     dist_after_deploy args w = dist_at_check args w).
Proof.
  split; [|split].
  - intros He. script. rewrite He. script. reflexivity.
  - intros a name He Hn Hu. script. rewrite He. script.
    destruct (unset "S3_BUCKET" w a) eqn:E1.
    { rewrite (required_unset _ _ _ _ _ E1). reflexivity. }
    destruct (required_set "S3_BUCKET" "S3_BUCKET is not set in .env" w _ [] E1) as [v1 ->].
    script.
    destruct (unset "AWS_REGION" w a) eqn:E2.
    { rewrite (required_unset _ _ _ _ _ E2). reflexivity. }
    destruct (required_set "AWS_REGION" "AWS_REGION is not set in .env" w _ [] E2) as [v2 ->].
    script.
    assert (E3 : unset "CLOUDFRONT_DISTRIBUTION_ID" w a = true).
    { destruct Hn as [<-|[<-|[<-|[]]]]; congruence. }
    rewrite (required_unset _ _ _ _ _ E3). reflexivity.
  - intros a b r d He (Hb & Hb' & Hr & Hr' & Hd & Hd') Hbuild Hdist.
    unfold resolved in *.
    script. rewrite He. script.
    rewrite (required_value _ _ _ _ _ b Hb Hb'). script.
    rewrite (required_value _ _ _ _ _ r Hr Hr'). script.
    rewrite (required_value _ _ _ _ _ d Hd Hd'). script.
    unfold dist_at_check in *.
    destruct (skip_build args) eqn:Es; cbn [negb]; script.
    + rewrite Hdist. reflexivity.
    + destruct Hbuild as [Hs|Hrs]; [discriminate|]. rewrite Hrs. script.
      change (0 =? 0) with true. script. rewrite Hdist. reflexivity.
Qed.

End DeployMore.

(** X8: a run of deploy.sh ends with status 0 exactly when the [.env] file
    exists, the three variables are set and not empty once it is read (in
    [.env] or, failing that, in the environment of the caller), the build is
    skipped or succeeds, dist/ is not empty when it is tested, and the two
    uploads and the invalidation all succeed. *)
Theorem deploy_succeeds_iff (args : list string) (w : Deploy.world) :
  fst (Deploy.run_deploy args w) = 0%Z <->
  exists a b r d,
    Deploy.env_file w = Some a /\ configured w a b r d /\
    (Deploy.skip_build args = true \/ Deploy.rsync_status w = 0%Z) /\
    Deploy.missing_or_empty (Deploy.dist_at_check args w) = false /\
    Deploy.sync_html_status w = 0%Z /\ Deploy.sync_assets_status w = 0%Z /\
    fst (Deploy.invalidation w) = 0%Z.
Proof.
  split.
  - intros H0.
    destruct (Deploy.env_file w) as [a|] eqn:He;
      [|destruct (deploy_no_env_file args w He) as (H & _); rewrite H in H0; discriminate].
    destruct (configured_or_unset w a) as [(b & r & d & Hc)|(name & Hn & Hu)];
      [|destruct (deploy_unset_variable args w a name He Hn Hu) as (H & _);
        rewrite H in H0; discriminate].
    pose proof (configured_set w a b r d Hc) as Hset.
    destruct (deploy_reaches_build args w a He Hset) as [Hfail Hempty].
    assert (Hb : Deploy.skip_build args = true \/ Deploy.rsync_status w = 0%Z).
    { destruct (Deploy.skip_build args) eqn:Es; [left; reflexivity|].
      destruct (Z.eq_dec (Deploy.rsync_status w) 0) as [Hr|Hr]; [right; exact Hr|].
      destruct (Hfail eq_refl Hr) as [H _]. rewrite H in H0. contradiction. }
    destruct (Deploy.missing_or_empty (Deploy.dist_at_check args w)) eqn:Hd;
      [destruct (Hempty Hb eq_refl) as (H & _); rewrite H in H0; discriminate|].
    destruct (deploy_publishes args w a b r d He Hc Hb Hd) as (_ & Hs & _).
    rewrite Hs in H0.
    assert (H : Deploy.sync_html_status w = 0%Z /\ Deploy.sync_assets_status w = 0%Z /\
                fst (Deploy.invalidation w) = 0%Z).
    { destruct (Deploy.sync_html_status w =? 0)%Z eqn:E1;
        [|apply Z.eqb_neq in E1; contradiction].
      destruct (Deploy.sync_assets_status w =? 0)%Z eqn:E2;
        [|apply Z.eqb_neq in E2; contradiction].
      apply Z.eqb_eq in E1, E2. auto. }
    destruct H as (H1 & H2 & H3).
    exists a, b, r, d. auto 10.
  - intros (a & b & r & d & He & Hc & Hb & Hd & H1 & H2 & H3).
    destruct (deploy_publishes args w a b r d He Hc Hb Hd) as (_ & Hs & _).
    rewrite Hs, H1, H2. exact H3.
Qed.

Lemma deploy_succeeds_iff_witness :
  fst (Deploy.run_deploy [] (calm_world (Some full_env) ["index.html"%string] None)) = 0%Z.
Proof.
  apply (deploy_succeeds_iff [] (calm_world (Some full_env) ["index.html"%string] None)).
  exists full_env, "my-bucket"%string, "eu-west-1"%string, "E123"%string.
  repeat split; try reflexivity; try discriminate.
  right. reflexivity.
Defined.

(** A variable that [.env] leaves out is taken from the environment. *)
Example deploy_region_from_environment :
  fst (Deploy.run_deploy []
         (Deploy.mkWorld "/site"
            (Some [("S3_BUCKET", "b"); ("CLOUDFRONT_DISTRIBUTION_ID", "d")]%string)
            [("AWS_REGION", "eu-west-1")]%string ["index.html"%string] None
            0 0 0 (0%Z, "I2ABC"%string))) = 0%Z.
Proof. vm_compute. reflexivity. Qed.

(** X9: once the checks have passed, the [aws] calls of a run are the upload
    of the pages, then the upload of the assets, then the invalidation, and
    the run stops at the first that fails, with its status: if the first
    upload fails the second is not made, and if an upload fails the cache is
    not invalidated. *)
Theorem deploy_stops_at_first_failure (args : list string) (w : Deploy.world)
    (a : list (string * string)) (b r d : string) :
  Deploy.env_file w = Some a -> configured w a b r d ->
  Deploy.skip_build args = true \/ Deploy.rsync_status w = 0%Z ->
  Deploy.missing_or_empty (Deploy.dist_at_check args w) = false ->
  (Deploy.sync_html_status w <> 0%Z ->
     fst (Deploy.run_deploy args w) = Deploy.sync_html_status w /\
     filter is_aws (snd (Deploy.run_deploy args w)) = [Deploy.s3_sync_html b r]) /\
  (Deploy.sync_html_status w = 0%Z -> Deploy.sync_assets_status w <> 0%Z ->
     fst (Deploy.run_deploy args w) = Deploy.sync_assets_status w /\
     filter is_aws (snd (Deploy.run_deploy args w)) =
       [Deploy.s3_sync_html b r; Deploy.s3_sync_assets b r]) /\
  (Deploy.sync_html_status w = 0%Z -> Deploy.sync_assets_status w = 0%Z ->
     fst (Deploy.run_deploy args w) = fst (Deploy.invalidation w) /\
     filter is_aws (snd (Deploy.run_deploy args w)) =
       [Deploy.s3_sync_html b r; Deploy.s3_sync_assets b r;
        Deploy.create_invalidation d]).
Proof.
  intros He Hc Hb Hd.
  destruct (deploy_publishes args w a b r d He Hc Hb Hd) as (Ht & Hs & _).
  rewrite Ht, Hs. split; [|split].
  - intros H. apply Z.eqb_neq in H. rewrite H. split; reflexivity.
  - intros H1 H2. rewrite H1. apply Z.eqb_neq in H2. cbn. rewrite H2. split; reflexivity.
  - intros H1 H2. rewrite H1, H2. split; reflexivity.
Qed.

Lemma deploy_stops_at_first_failure_witness :
  fst (Deploy.run_deploy [] assets_fail_world) = Deploy.sync_assets_status assets_fail_world /\
  filter is_aws (snd (Deploy.run_deploy [] assets_fail_world)) =
    [Deploy.s3_sync_html "my-bucket" "eu-west-1";
     Deploy.s3_sync_assets "my-bucket" "eu-west-1"].
Proof.
  destruct (deploy_stops_at_first_failure [] assets_fail_world full_env
              "my-bucket"%string "eu-west-1"%string "E123"%string) as (_ & H & _).
  - reflexivity.
  - repeat split; try reflexivity; discriminate.
  - right. reflexivity.
  - reflexivity.
  - apply H; [reflexivity | discriminate].
Defined.

(** X10: with [--skip-build], and whenever the configuration is rejected, a
    run leaves dist/ as it found it; a run that builds with success leaves in
    dist/ the entries of src/ other than [.DS_Store], whatever dist/ held
    before and whatever becomes of the upload. *)
Theorem deploy_leaves_dist (args : list string) (w : Deploy.world) :
  (Deploy.skip_build args = true -> dist_after_deploy args w = Deploy.dist_dir w) /\
  (Deploy.env_file w = None \/
   (exists a name, Deploy.env_file w = Some a /\ In name Deploy.required_names /\
                   Deploy.unset name w a = true) ->
   dist_after_deploy args w = Deploy.dist_dir w) /\
  (forall a b r d,
     Deploy.env_file w = Some a -> configured w a b r d ->
     Deploy.skip_build args = false -> Deploy.rsync_status w = 0%Z ->
     dist_after_deploy args w =
       Some (filter (fun n => negb (String.eqb n ".DS_Store")) (Deploy.src_dir w))).
Proof.
  destruct (deploy_dist_early args w) as (E1 & E2 & E3).
  assert (Hpass : forall a b r d,
            Deploy.env_file w = Some a -> configured w a b r d ->
            Deploy.skip_build args = true \/ Deploy.rsync_status w = 0%Z ->
            dist_after_deploy args w = Deploy.dist_at_check args w).
  { intros a b r d He Hc Hb.
    destruct (Deploy.missing_or_empty (Deploy.dist_at_check args w)) eqn:Hd.
    - apply (E3 a b r d He Hc Hb eq_refl).
    - apply (deploy_publishes args w a b r d He Hc Hb Hd). }
  split; [|split].
  - intros Hs.
    destruct (Deploy.env_file w) as [a|] eqn:He; [|apply E1; reflexivity].
    destruct (configured_or_unset w a) as [(b & r & d & Hc)|(name & Hn & Hu)];
      [|apply (E2 a name eq_refl Hn Hu)].
    rewrite (Hpass a b r d eq_refl Hc (or_introl Hs)).
    unfold Deploy.dist_at_check. rewrite Hs. reflexivity.
  - intros [He|(a & name & He & Hn & Hu)]; [apply E1, He | apply (E2 a name He Hn Hu)].
  - intros a b r d He Hc Hs Hr.
    rewrite (Hpass a b r d He Hc (or_intror Hr)).
    unfold Deploy.dist_at_check. rewrite Hs. reflexivity.
Qed.

Lemma deploy_leaves_dist_witness :
  dist_after_deploy [] assets_fail_world =
  Some (filter (fun n => negb (String.eqb n ".DS_Store")) (Deploy.src_dir assets_fail_world)).
Proof.
  destruct (deploy_leaves_dist [] assets_fail_world) as (_ & _ & H).
  apply (H full_env "my-bucket"%string "eu-west-1"%string "E123"%string).
  - reflexivity.
  - repeat split; try reflexivity; discriminate.
  - reflexivity.
  - reflexivity.
Defined.

Example deploy_drops_stale_files :
  dist_after_deploy [] assets_fail_world = Some ["index.html"%string].
Proof. vm_compute. reflexivity. Qed.

(** ** The typing effect *)

Lemma substring_0_0 (s : string) : String.substring 0 0 s = EmptyString.
Proof. destruct s; reflexivity. Qed.

Lemma slice0_0 (w : string) : Typing.slice0 w 0 = EmptyString.
Proof.
  unfold Typing.slice0. simpl.
  replace (Z.to_nat (Z.min 0 (Z.of_nat (String.length w)))) with O by lia.
  apply substring_0_0.
Qed.

Lemma substring_length (s : string) (n : nat) :
  (n <= String.length s)%nat -> String.length (String.substring 0 n s) = n.
Proof.
  revert n. induction s as [|c s IH]; intros n Hn; simpl in *.
  - destruct n; [reflexivity | lia].
  - destruct n; [reflexivity|]. simpl. rewrite IH; lia.
Qed.

Lemma substring_all (s : string) : String.substring 0 (String.length s) s = s.
Proof. induction s as [|c s IH]; simpl; [reflexivity | rewrite IH; reflexivity]. Qed.

Lemma slice0_length (w : string) (k : Z) :
  (0 <= k <= Z.of_nat (String.length w))%Z ->
  Z.of_nat (String.length (Typing.slice0 w k)) = k.
Proof.
  intros Hk. unfold Typing.slice0.
  destruct (k <? 0)%Z eqn:E; [apply Z.ltb_lt in E; lia|].
  rewrite substring_length; lia.
Qed.

Lemma slice0_all (w : string) : Typing.slice0 w (Z.of_nat (String.length w)) = w.
Proof.
  unfold Typing.slice0.
  destruct (Z.of_nat (String.length w) <? 0)%Z eqn:E; [apply Z.ltb_lt in E; lia|].
  rewrite Z.min_id, Nat2Z.id. apply substring_all.
Qed.

Section TypingFacts.

Variable ws : list string.
Hypothesis ws_words : Forall (fun w => w <> EmptyString) ws.

Lemma word_length (i : nat) (w : string) :
  nth_error ws i = Some w -> (1 <= Z.of_nat (String.length w))%Z.
Proof.
  intros H. apply nth_error_In in H. rewrite Forall_forall in ws_words.
  specialize (ws_words w H). destruct w; [contradiction | simpl; lia].
Qed.

Lemma next_word (i : nat) :
  (i < length ws)%nat -> exists w, nth_error ws (Nat.modulo (i + 1) (length ws)) = Some w.
Proof.
  intros Hi. destruct (nth_error ws (Nat.modulo (i + 1) (length ws))) as [w|] eqn:E;
    [exists w; reflexivity|].
  apply nth_error_None in E.
  pose proof (Nat.mod_upper_bound (i + 1) (length ws) ltac:(lia)). lia.
Qed.

Lemma fire_ok (started : bool) (s : Typing.state) :
  typing_ok ws started s -> typing_ok ws true (Typing.fire ws s).
Proof.
  intros (w & due & Hw & Hp & Hnow & _).
  pose proof (word_length _ _ Hw) as Hlen.
  assert (Hi : (Typing.wordIdx s < length ws)%nat) by (apply nth_error_Some; congruence).
  destruct (next_word _ Hi) as [w' Hw'].
  pose proof (word_length _ _ Hw') as Hlen'.
  unfold typing_ok, typing_phase in *.
  destruct Hp as [(Hd & Hpa & Hc & Ht)|[(Hd & Hpa & Hc & Ht)|(Hd & Hpa & Hc & Ht)]].
  - (* typing *)
    unfold Typing.fire. rewrite Ht. cbn [Typing.next_timer Typing.call].
    unfold Typing.tick. cbn [Typing.deleting Typing.charIdx Typing.wordIdx Typing.paused
                             Typing.textContent Typing.now Typing.timers].
    rewrite Hd, Hw, Hpa.
    destruct (Typing.charIdx s + 1 =? Z.of_nat (String.length w))%Z eqn:E.
    + apply Z.eqb_eq in E. cbn [negb].
      exists w, (due + Typing.PAUSE_BETWEEN)%Z. cbn.
      split; [exact Hw|]. split; [|split; [unfold Typing.PAUSE_BETWEEN; lia | reflexivity]].
      right. left. repeat split. exact E.
    + apply Z.eqb_neq in E.
      exists w, (due + Typing.TYPE_SPEED)%Z. cbn.
      split; [exact Hw|]. split; [|split; [unfold Typing.TYPE_SPEED; lia | reflexivity]].
      left. repeat split; lia.
  - (* holding: the pause ends *)
    unfold Typing.fire. rewrite Ht. cbn [Typing.next_timer Typing.call].
    unfold Typing.resume, Typing.tick.
    cbn [Typing.deleting Typing.charIdx Typing.wordIdx Typing.paused
         Typing.textContent Typing.now Typing.timers].
    rewrite Hw.
    destruct (Typing.charIdx s - 1 =? 0)%Z eqn:E.
    + apply Z.eqb_eq in E.
      exists w', (due + 400)%Z. cbn.
      split; [exact Hw'|]. split; [|split; [lia|]].
      * left. repeat split; lia.
      * intros _. rewrite E, !slice0_0. reflexivity.
    + apply Z.eqb_neq in E.
      exists w, (due + Typing.DELETE_SPEED)%Z. cbn.
      split; [exact Hw|]. split; [|split; [unfold Typing.DELETE_SPEED; lia | reflexivity]].
      right. right. repeat split; lia.
  - (* deleting *)
    unfold Typing.fire. rewrite Ht. cbn [Typing.next_timer Typing.call].
    unfold Typing.tick. cbn [Typing.deleting Typing.charIdx Typing.wordIdx Typing.paused
                             Typing.textContent Typing.now Typing.timers].
    rewrite Hd, Hw.
    destruct (Typing.charIdx s - 1 =? 0)%Z eqn:E.
    + apply Z.eqb_eq in E.
      exists w', (due + 400)%Z. cbn.
      split; [exact Hw'|]. split; [|split; [lia|]].
      * left. rewrite ?Hpa. repeat split; lia.
      * intros _. rewrite E, !slice0_0. reflexivity.
    + apply Z.eqb_neq in E.
      exists w, (due + Typing.DELETE_SPEED)%Z. cbn.
      split; [exact Hw|]. split; [|split; [unfold Typing.DELETE_SPEED; lia | reflexivity]].
      right. right. rewrite ?Hd, ?Hpa. repeat split; lia.
Qed.

Lemma fires_ok (n : nat) (s : Typing.state) (started : bool) :
  typing_ok ws started s ->
  typing_ok ws (match n with O => started | S _ => true end) (fires_of ws n s).
Proof.
  intros H. induction n as [|n IH]; [exact H|].
  change (fires_of ws (S n) s) with (Typing.fire ws (fires_of ws n s)).
  eapply fire_ok. exact IH.
Qed.

End TypingFacts.

(** X11: when the list of words is not empty and holds no empty word, the
    typing effect never stalls and never doubles: after any number of
    timeouts exactly one timeout is pending, due now or later, [wordIdx]
    names a word, [charIdx] lies within it, and from the first timeout on the
    element shows the first [charIdx] characters of that word. *)
Theorem typing_keeps_one_timer (ws : list string) (text : string) (n : nat) :
  ws <> [] -> Forall (fun w => w <> EmptyString) ws ->
  exists w due f,
    nth_error ws (Typing.wordIdx (fires_of ws n (Typing.initTyping text))) = Some w /\
    Typing.timers (fires_of ws n (Typing.initTyping text)) = [(due, f)] /\
    (Typing.now (fires_of ws n (Typing.initTyping text)) <= due)%Z /\
    (0 <= Typing.charIdx (fires_of ws n (Typing.initTyping text))
       <= Z.of_nat (String.length w))%Z /\
    ((0 < n)%nat ->
     Typing.textContent (fires_of ws n (Typing.initTyping text)) =
       Typing.slice0 w (Typing.charIdx (fires_of ws n (Typing.initTyping text))) /\
     Z.of_nat (String.length (Typing.textContent (fires_of ws n (Typing.initTyping text)))) =
       Typing.charIdx (fires_of ws n (Typing.initTyping text))).
Proof.
  intros Hne Hws.
  assert (H0 : typing_ok ws false (Typing.initTyping text)).
  { destruct ws as [|w0 ws']; [contradiction|].
    exists w0, 1400%Z. split; [reflexivity|]. split; [|split; [cbn; lia | discriminate]].
    left. cbn. repeat split; try lia.
    inversion Hws; subst. destruct w0; [contradiction | simpl; lia]. }
  destruct (fires_ok ws Hws n _ _ H0) as (w & due & Hw & Hp & Hnow & Htext).
  set (s := fires_of ws n (Typing.initTyping text)) in *.
  assert (Hc : (0 <= Typing.charIdx s <= Z.of_nat (String.length w))%Z /\
               exists f, Typing.timers s = [(due, f)]).
  { destruct Hp as [(_ & _ & Hc & Ht)|[(_ & _ & Hc & Ht)|(_ & _ & Hc & Ht)]];
      (split; [lia | eexists; exact Ht]). }
  destruct Hc as [Hc [f Hf]].
  exists w, due, f. split; [exact Hw|]. split; [exact Hf|]. split; [exact Hnow|].
  split; [exact Hc|].
  intros Hn. destruct n as [|n]; [lia|].
  specialize (Htext eq_refl). split; [exact Htext|].
  rewrite Htext. apply slice0_length, Hc.
Qed.

Lemma typing_keeps_one_timer_witness :
  length (Typing.timers (fires_of Typing.words 9 (Typing.initTyping "developer"))) = 1%nat.
Proof.
  destruct (typing_keeps_one_timer Typing.words "developer" 9)
    as (w & due & f & _ & Ht & _).
  - discriminate.
  - repeat constructor; discriminate.
  - rewrite Ht. reflexivity.
Defined.

Example typing_after_nine_timeouts :
  Typing.textContent (fires_of Typing.words 9 (Typing.initTyping "developer")) = "clo"%string /\
  Typing.timers (fires_of Typing.words 9 (Typing.initTyping "developer")) =
    [(4160%Z, Typing.tick_cb)].
Proof. vm_compute. split; reflexivity. Qed.

Section Cycle.

Ltac state_eq :=
  f_equal; first [lia | reflexivity | (f_equal; lia) | (f_equal; f_equal; lia)].

Ltac fields :=
  cbn [Typing.wordIdx Typing.charIdx Typing.deleting Typing.paused
       Typing.textContent Typing.now Typing.timers app].

Variable ws : list string.
Variable w : string.
Variable i : nat.
Hypothesis w_at_i : nth_error ws i = Some w.
Hypothesis w_not_empty : w <> EmptyString.

Lemma w_length : (1 <= String.length w)%nat.
Proof. destruct w; [contradiction | simpl; lia]. Qed.

Lemma fire_typed (due : Z) (k : nat) :
  (1 <= k < String.length w)%nat ->
  Typing.fire ws (typed w i due k) = typed w i due (S k).
Proof.
  intros Hk. unfold typed at 1.
  destruct (Nat.eqb k (String.length w)) eqn:E; [apply Nat.eqb_eq in E; lia|].
  unfold Typing.fire. cbn [Typing.timers Typing.next_timer Typing.call].
  unfold Typing.tick.
  cbn [Typing.deleting Typing.charIdx Typing.wordIdx Typing.paused
       Typing.textContent Typing.now Typing.timers].
  rewrite w_at_i. unfold typed.
  replace (Z.of_nat k + 1)%Z with (Z.of_nat (S k)) by lia.
  destruct (Nat.eqb (S k) (String.length w)) eqn:E2.
  - apply Nat.eqb_eq in E2.
    replace (Z.of_nat (S k) =? Z.of_nat (String.length w))%Z with true
      by (symmetry; apply Z.eqb_eq; lia).
    cbn [negb]. unfold Typing.setTimeout, Typing.PAUSE_BETWEEN. fields.
    state_eq.
  - apply Nat.eqb_neq in E2.
    replace (Z.of_nat (S k) =? Z.of_nat (String.length w))%Z with false
      by (symmetry; apply Z.eqb_neq; lia).
    unfold Typing.setTimeout, Typing.TYPE_SPEED. fields.
    state_eq.
Qed.

Lemma fire_start (s : Typing.state) (due : Z) :
  at_word_start s i due -> Typing.fire ws s = typed w i due 1.
Proof.
  intros (Hi & Hc & Hd & Hp & Ht).
  unfold Typing.fire. rewrite Ht. cbn [Typing.next_timer Typing.call].
  unfold Typing.tick.
  cbn [Typing.deleting Typing.charIdx Typing.wordIdx Typing.paused
       Typing.textContent Typing.now Typing.timers].
  rewrite Hd, Hi, Hc, Hp, w_at_i. unfold typed.
  pose proof w_length as Hl.
  destruct (Nat.eqb 1 (String.length w)) eqn:E2.
  - apply Nat.eqb_eq in E2.
    replace (0 + 1 =? Z.of_nat (String.length w))%Z with true
      by (symmetry; apply Z.eqb_eq; lia).
    cbn [negb]. unfold Typing.setTimeout, Typing.PAUSE_BETWEEN. fields.
    state_eq.
  - apply Nat.eqb_neq in E2.
    replace (0 + 1 =? Z.of_nat (String.length w))%Z with false
      by (symmetry; apply Z.eqb_neq; lia).
    unfold Typing.setTimeout, Typing.TYPE_SPEED. fields.
    state_eq.
Qed.

Lemma fires_typed (s : Typing.state) (due : Z) (k : nat) :
  at_word_start s i due -> (1 <= k <= String.length w)%nat ->
  fires_of ws k s = typed w i due k.
Proof.
  intros Hs Hk. induction k as [|k IH]; [lia|].
  change (fires_of ws (S k) s) with (Typing.fire ws (fires_of ws k s)).
  destruct k as [|k].
  - apply fire_start, Hs.
  - rewrite IH by lia. apply fire_typed. lia.
Qed.

Lemma fire_held (due : Z) :
  Typing.fire ws (typed w i due (String.length w)) =
  deleted ws w i (due + 90 * (Z.of_nat (String.length w) - 1) + 1800) 1.
Proof.
  pose proof w_length as Hl.
  unfold typed. rewrite Nat.eqb_refl.
  unfold Typing.fire. cbn [Typing.timers Typing.next_timer Typing.call].
  unfold Typing.resume, Typing.tick.
  cbn [Typing.deleting Typing.charIdx Typing.wordIdx Typing.paused
       Typing.textContent Typing.now Typing.timers].
  rewrite w_at_i. unfold deleted.
  destruct (Nat.eqb 1 (String.length w)) eqn:E2.
  - apply Nat.eqb_eq in E2.
    replace (Z.of_nat (String.length w) - 1 =? 0)%Z with true
      by (symmetry; apply Z.eqb_eq; lia).
    unfold Typing.setTimeout. fields.
    replace (Z.of_nat (String.length w) - 1)%Z with 0%Z by lia.
    state_eq.
  - apply Nat.eqb_neq in E2.
    replace (Z.of_nat (String.length w) - 1 =? 0)%Z with false
      by (symmetry; apply Z.eqb_neq; lia).
    unfold Typing.setTimeout, Typing.DELETE_SPEED. fields.
    state_eq.
Qed.

Lemma fire_deleted (t : Z) (k : nat) :
  (1 <= k < String.length w)%nat ->
  Typing.fire ws (deleted ws w i t k) = deleted ws w i t (S k).
Proof.
  intros Hk. unfold deleted at 1.
  destruct (Nat.eqb k (String.length w)) eqn:E; [apply Nat.eqb_eq in E; lia|].
  unfold Typing.fire. cbn [Typing.timers Typing.next_timer Typing.call].
  unfold Typing.tick.
  cbn [Typing.deleting Typing.charIdx Typing.wordIdx Typing.paused
       Typing.textContent Typing.now Typing.timers].
  rewrite w_at_i. unfold deleted.
  destruct (Nat.eqb (S k) (String.length w)) eqn:E2.
  - apply Nat.eqb_eq in E2.
    replace (Z.of_nat (String.length w) - Z.of_nat k - 1 =? 0)%Z with true
      by (symmetry; apply Z.eqb_eq; lia).
    unfold Typing.setTimeout. fields.
    replace (Z.of_nat (String.length w) - Z.of_nat k - 1)%Z with 0%Z by lia.
    state_eq.
  - apply Nat.eqb_neq in E2.
    replace (Z.of_nat (String.length w) - Z.of_nat k - 1 =? 0)%Z with false
      by (symmetry; apply Z.eqb_neq; lia).
    unfold Typing.setTimeout, Typing.DELETE_SPEED. fields.
    state_eq.
Qed.

Lemma fires_deleted (s : Typing.state) (due : Z) (k : nat) :
  at_word_start s i due -> (1 <= k <= String.length w)%nat ->
  fires_of ws (String.length w + k) s =
  deleted ws w i (due + 90 * (Z.of_nat (String.length w) - 1) + 1800) k.
Proof.
  intros Hs Hk. pose proof w_length as Hl. induction k as [|k IH]; [lia|].
  replace (String.length w + S k)%nat with (S (String.length w + k)) by lia.
  change (fires_of ws (S ?n) s) with (Typing.fire ws (fires_of ws n s)).
  destruct k as [|k].
  - rewrite Nat.add_0_r, (fires_typed s due) by (auto; lia). apply fire_held.
  - rewrite IH by lia. apply fire_deleted. lia.
Qed.

End Cycle.

(** X12: one word of the typing effect, from the timeout at [due] that types
    its first character, every timeout running at the time at which it is
    due.  With [L] the length of the word: the [k]-th timeout
    shows its first [k] characters; the [L]-th, at [due + 90 (L - 1)], shows
    the whole word and sets the pause of 1800 ms; the timeouts after it show
    one character less each; the [2 L]-th leaves the element empty and the
    effect at the start of the next word, the first one after the last, due
    [145 (L - 1) + 2200] ms after [due]. *)
Theorem typing_word_cycle (ws : list string) (w : string) (i : nat) (s : Typing.state)
    (due : Z) (k : nat) :
  nth_error ws i = Some w -> w <> EmptyString -> at_word_start s i due ->
  (1 <= k <= String.length w)%nat ->
  Typing.textContent (fires_of ws k s) = Typing.slice0 w (Z.of_nat k) /\
  Typing.textContent (fires_of ws (String.length w + k) s) =
    Typing.slice0 w (Z.of_nat (String.length w) - Z.of_nat k) /\
  Typing.textContent (fires_of ws (String.length w) s) = w /\
  Typing.now (fires_of ws (String.length w) s) =
    (due + 90 * (Z.of_nat (String.length w) - 1))%Z /\
  Typing.timers (fires_of ws (String.length w) s) =
    [((due + 90 * (Z.of_nat (String.length w) - 1) + 1800)%Z, Typing.resume_cb)] /\
  at_word_start (fires_of ws (2 * String.length w) s)
    (Nat.modulo (i + 1) (length ws))
    (due + 145 * (Z.of_nat (String.length w) - 1) + 2200)%Z /\
  Typing.textContent (fires_of ws (2 * String.length w) s) = EmptyString.
Proof.
  intros Hw Hne Hs Hk.
  assert (Hl : (1 <= String.length w)%nat) by (destruct w; [contradiction | simpl; lia]).
  rewrite (fires_typed ws w i Hw Hne s due k Hs Hk).
  rewrite (fires_deleted ws w i Hw Hne s due k Hs Hk).
  rewrite (fires_typed ws w i Hw Hne s due (String.length w) Hs) by lia.
  replace (2 * String.length w)%nat with (String.length w + String.length w)%nat by lia.
  rewrite (fires_deleted ws w i Hw Hne s due (String.length w) Hs) by lia.
  unfold typed, deleted. rewrite !Nat.eqb_refl.
  cbn [Typing.wordIdx Typing.charIdx Typing.deleting Typing.paused
       Typing.textContent Typing.now Typing.timers].
  split; [reflexivity|].
  split.
  { destruct (Nat.eqb k (String.length w)) eqn:E;
      cbn [Typing.textContent]; [|reflexivity].
    apply Nat.eqb_eq in E. subst k. rewrite Z.sub_diag. reflexivity. }
  split; [apply slice0_all|]. split; [reflexivity|]. split; [reflexivity|].
  split; [|apply slice0_0].
  unfold at_word_start.
  cbn [Typing.wordIdx Typing.charIdx Typing.deleting Typing.paused Typing.timers].
  repeat split. f_equal. f_equal. lia.
Qed.

Lemma typing_word_cycle_witness :
  Typing.textContent (fires_of Typing.words 2 (Typing.initTyping EmptyString)) = "we"%string /\
  at_word_start (fires_of Typing.words 6 (Typing.initTyping EmptyString)) 1 3890%Z.
Proof.
  destruct (typing_word_cycle Typing.words "web" 0 (Typing.initTyping EmptyString) 1400 2)
    as (H1 & _ & _ & _ & _ & H6 & _).
  - reflexivity.
  - discriminate.
  - repeat split.
  - simpl. lia.
  - split; [exact H1 | exact H6].
Defined.

(** ** The navigation bar *)

Lemma StronglySorted_app_parts {A : Type} (R : A -> A -> Prop) (l1 l2 : list A) :
  StronglySorted R (l1 ++ l2) -> StronglySorted R l1 /\ StronglySorted R l2.
Proof.
  induction l1 as [|x l1 IH]; simpl; intros H; [split; [constructor | exact H]|].
  apply StronglySorted_inv in H. destruct H as [H Hx].
  destruct (IH H) as [H1 H2]. split; [|exact H2].
  constructor; [exact H1|]. apply Forall_app in Hx. apply Hx.
Qed.

Section NavFacts.

Variables (scrollY innerHeight : Q).

Let mid : Q := Nav.scrollMid scrollY innerHeight.
Let above (sec : Nav.section) : bool := Qle_bool (Nav.offsetTop sec) mid.

Lemma current_last (sections : list Nav.section) :
  Nav.current sections scrollY innerHeight =
  match find above (rev sections) with
  | Some c => Some c
  | None => hd_error sections
  end.
Proof.
  unfold Nav.current. generalize (hd_error sections) as init.
  induction sections as [|x l IH] using rev_ind; intros init; [reflexivity|].
  rewrite fold_left_app, rev_app_distr. simpl. fold mid. fold (above x).
  destruct (above x); [reflexivity | apply IH].
Qed.

Lemma find_skips (l1 l2 : list Nav.section) :
  (forall x, In x l1 -> above x = false) -> find above (l1 ++ l2) = find above l2.
Proof.
  induction l1 as [|x l1 IH]; intros H; [reflexivity|].
  simpl. rewrite (H x) by (left; reflexivity).
  apply IH. intros y Hy. apply H. right. exact Hy.
Qed.

Lemma above_false (sec : Nav.section) : above sec = false <-> mid < Nav.offsetTop sec.
Proof.
  unfold above. rewrite <- not_true_iff_false, Qle_bool_iff. split.
  - apply Qnot_le_lt.
  - apply Qlt_not_le.
Qed.

Lemma current_below_all (sections : list Nav.section) :
  (forall c, In c sections -> mid < Nav.offsetTop c) ->
  Nav.current sections scrollY innerHeight = hd_error sections.
Proof.
  intros H. rewrite current_last.
  rewrite <- (app_nil_r (rev sections)), find_skips; [reflexivity|].
  intros x Hx. apply above_false, H, in_rev, Hx.
Qed.

Lemma current_holds_line (sections : list Nav.section) (k : nat) :
  in_page_order sections -> holds_line sections mid k ->
  Nav.current sections scrollY innerHeight = nth_error sections k.
Proof.
  intros Hs [(c & Hc & Hle) Hnext]. rewrite current_last, Hc.
  destruct (nth_error_split sections k Hc) as (pre & post & -> & Hlen).
  rewrite rev_app_distr. simpl. rewrite <- app_assoc, find_skips.
  - simpl. unfold above at 1. apply Qle_bool_iff in Hle. rewrite Hle. reflexivity.
  - intros x Hx. apply in_rev in Hx. apply above_false.
    apply StronglySorted_app_parts in Hs. destruct Hs as [_ Hs].
    apply StronglySorted_inv in Hs. destruct Hs as [Hpost _].
    destruct post as [|n post]; [contradiction|].
    assert (Hn : mid < Nav.offsetTop n).
    { apply Hnext. rewrite <- Hlen.
      replace (S (length pre)) with (length (pre ++ [c]) + 0)%nat
        by (rewrite length_app; simpl; lia).
      change (pre ++ c :: n :: post) with (pre ++ [c] ++ n :: post).
      rewrite app_assoc, nth_error_app2 by lia.
      replace (_ - _)%nat with 0%nat by lia. reflexivity. }
    destruct Hx as [<-|Hx]; [exact Hn|].
    apply StronglySorted_inv in Hpost. destruct Hpost as [_ Hall].
    rewrite Forall_forall in Hall. specialize (Hall x Hx). simpl in Hall.
    eapply Qlt_le_trans; eassumption.
Qed.

Lemma line_somewhere (sections : list Nav.section) :
  (forall c, In c sections -> mid < Nav.offsetTop c) \/
  (in_page_order sections -> exists k, holds_line sections mid k).
Proof.
  induction sections as [|x l IH] using rev_ind.
  - left. intros c [].
  - destruct (above x) eqn:Ex.
    + right. intros _. exists (length l). split.
      * exists x. split; [rewrite nth_error_app2, Nat.sub_diag by lia; reflexivity|].
        apply Qle_bool_iff, Ex.
      * intros c Hc. assert (Hn : nth_error (l ++ [x]) (S (length l)) = None).
        { apply nth_error_None. rewrite length_app. simpl. lia. }
        congruence.
    + apply above_false in Ex. destruct IH as [IH|IH].
      * left. intros c Hc. apply in_app_or in Hc.
        destruct Hc as [Hc|[<-|[]]]; [apply IH, Hc | exact Ex].
      * right. intros Hs. pose proof Hs as Hs'.
        apply StronglySorted_app_parts in Hs'. destruct Hs' as [Hl _].
        destruct (IH Hl) as (k & (c & Hc & Hle) & Hnext).
        assert (Hk : (k < length l)%nat) by (apply nth_error_Some; congruence).
        exists k. split.
        -- exists c. split; [rewrite nth_error_app1 by lia; exact Hc | exact Hle].
        -- intros c' Hc'. destruct (Nat.eq_dec (S k) (length l)) as [E|E].
           ++ rewrite nth_error_app2, E, Nat.sub_diag in Hc' by lia.
              injection Hc' as <-. exact Ex.
           ++ rewrite nth_error_app1 in Hc' by lia. apply Hnext, Hc'.
Qed.

End NavFacts.

(** X13: [updateActiveLink] on sections that come in the order of their
    offsets and have distinct ids.  The current section is the one in which
    the line at 40% of the window lies, and the first section when the line is
    above all of them; one of the two is always the case.  A link to a section
    of the page is active exactly when that section is the current one. *)
Theorem active_link_follows_scroll (sections : list Nav.section) (links : list string)
    (scrollY innerHeight : Q) :
  in_page_order sections ->
  NoDup (map Nav.id sections) ->
  (forall k, holds_line sections (Nav.scrollMid scrollY innerHeight) k ->
     Nav.current sections scrollY innerHeight = nth_error sections k) /\
  ((forall c, In c sections -> Nav.scrollMid scrollY innerHeight < Nav.offsetTop c) ->
     Nav.current sections scrollY innerHeight = hd_error sections) /\
  ((forall c, In c sections -> Nav.scrollMid scrollY innerHeight < Nav.offsetTop c) \/
   exists k, holds_line sections (Nav.scrollMid scrollY innerHeight) k) /\
  (sections <> [] -> exists c, Nav.current sections scrollY innerHeight = Some c /\
     In c sections /\
     forall i href c',
       nth_error links i = Some href -> In c' sections ->
       Nav.slice1 href = Nav.id c' ->
       (nth_error (Nav.updateActiveLink sections links scrollY innerHeight) i = Some true
        <-> c' = c)).
Proof.
  intros Hs Hids.
  split; [intros k; apply current_holds_line, Hs|].
  split; [apply current_below_all|].
  assert (Hline := line_somewhere scrollY innerHeight sections).
  split; [destruct Hline as [H|H]; [left; exact H | right; exact (H Hs)]|].
  intros Hne.
  assert (Hc : exists c, Nav.current sections scrollY innerHeight = Some c /\ In c sections).
  { destruct Hline as [H|H].
    - rewrite (current_below_all _ _ _ H). destruct sections as [|c l]; [congruence|].
      exists c. split; [reflexivity | left; reflexivity].
    - destruct (H Hs) as (k & Hk). rewrite (current_holds_line _ _ _ _ Hs Hk).
      destruct Hk as [(c & Hc & _) _]. exists c. split; [exact Hc|].
      eapply nth_error_In, Hc. }
  destruct Hc as (c & Hc & Hin). exists c. split; [exact Hc|]. split; [exact Hin|].
  intros i href c' Hl Hin' Hhref. unfold Nav.updateActiveLink.
  rewrite nth_error_map, Hl, Hc. simpl. rewrite Hhref. split.
  - intros H. injection H as H. apply String.eqb_eq in H.
    apply In_nth_error in Hin, Hin'. destruct Hin as [n Hn]. destruct Hin' as [n' Hn'].
    assert (E : n' = n).
    { apply (proj1 (NoDup_nth_error (map Nav.id sections)) Hids).
      - rewrite length_map. apply nth_error_Some. congruence.
      - rewrite !nth_error_map, Hn, Hn'. simpl. congruence. }
    subst. congruence.
  - intros ->. rewrite String.eqb_refl. reflexivity.
Qed.

Lemma active_link_follows_scroll_witness :
  Nav.current page_sections 500 800 = Some (Nav.mk_section "about" 600) /\
  nth_error (Nav.updateActiveLink page_sections page_links 500 800) 2 <> Some true.
Proof.
  assert (Hs : in_page_order page_sections).
  { repeat constructor; apply Qle_bool_iff; reflexivity. }
  assert (Hn : NoDup (map Nav.id page_sections)).
  { repeat constructor; simpl; intuition discriminate. }
  destruct (active_link_follows_scroll page_sections page_links 500 800 Hs Hn)
    as (Hline & _ & _ & Hlinks).
  assert (Hc : Nav.current page_sections 500 800 = Some (Nav.mk_section "about" 600)).
  { apply (Hline 1%nat). split.
    - exists (Nav.mk_section "about" 600). split; [reflexivity|].
      apply Qle_bool_iff. reflexivity.
    - intros c Hc. injection Hc as <-. reflexivity. }
  split; [exact Hc|].
  destruct Hlinks as (c & Hcur & _ & Hact); [discriminate|].
  rewrite Hc in Hcur. injection Hcur as <-.
  intros H.
  apply (Hact 2%nat "#contact"%string (Nav.mk_section "contact" 1400)) in H.
  - discriminate H.
  - reflexivity.
  - right. right. left. reflexivity.
  - reflexivity.
Defined.

Example links_of_the_page :
  Nav.updateActiveLink page_sections page_links 500 800 = [false; true; false] /\
  Nav.updateActiveLink page_sections page_links 1200 800 = [false; false; true].
Proof. vm_compute. split; reflexivity. Qed.

(** ** The contact form *)

Lemma cat_inv (r1 r2 : Form.regex) (s : Form.jsstring) :
  matches (Form.Cat r1 r2) s ->
  exists s1 s2, s = s1 ++ s2 /\ matches r1 s1 /\ matches r2 s2.
Proof. intros H. inversion H; subst. eauto. Qed.

Lemma or_inv (r1 r2 : Form.regex) (s : Form.jsstring) :
  matches (Form.Or r1 r2) s -> matches r1 s \/ matches r2 s.
Proof. intros H. inversion H; subst; auto. Qed.

Lemma class_inv (p : N -> bool) (s : Form.jsstring) :
  matches (Form.Class p) s -> exists c, s = [c] /\ p c = true.
Proof. intros H. inversion H; subst. eauto. Qed.

Lemma nullable_matches (r : Form.regex) : Form.nullable r = true <-> matches r [].
Proof.
  induction r as [| |p|r1 IH1 r2 IH2|r1 IH1 r2 IH2|r IH]; simpl.
  - split; [discriminate | intros H; inversion H].
  - split; [constructor | reflexivity].
  - split; [discriminate | intros H; inversion H].
  - rewrite andb_true_iff, IH1, IH2. split.
    + intros [H1 H2]. apply (matches_cat _ _ [] []); assumption.
    + intros H. apply cat_inv in H. destruct H as (s1 & s2 & E & H1 & H2).
      symmetry in E. apply app_eq_nil in E. destruct E; subst. split; assumption.
  - rewrite orb_true_iff, IH1, IH2. split.
    + intros [H|H]; [apply matches_or_l | apply matches_or_r]; exact H.
    + apply or_inv.
  - split; [constructor | reflexivity].
Qed.

Lemma star_cons_inv (r : Form.regex) (c : N) (s : Form.jsstring) :
  matches (Form.Star r) (c :: s) ->
  exists s1 s2, s = s1 ++ s2 /\ matches r (c :: s1) /\ matches (Form.Star r) s2.
Proof.
  intros H. remember (Form.Star r) as r' eqn:Er. remember (c :: s) as t eqn:Et.
  revert s Et. induction H as [| | | | | |r0 s1 s2 H1 _ H2 IH2]; intros s0 Et;
    try discriminate.
  injection Er as ->.
  destruct s1 as [|c1 s1].
  - simpl in Et. apply (IH2 eq_refl _ Et).
  - simpl in Et. injection Et as -> <-. exists s1, s2. auto.
Qed.

Lemma after_matches (r : Form.regex) (c : N) (s : Form.jsstring) :
  matches (Form.after c r) s <-> matches r (c :: s).
Proof.
  revert s. induction r as [| |p|r1 IH1 r2 IH2|r1 IH1 r2 IH2|r IH]; intros s; simpl.
  - split; intros H; inversion H.
  - split; intros H; inversion H.
  - destruct (p c) eqn:E; split; intros H.
    + inversion H; subst. constructor. exact E.
    + apply class_inv in H. destruct H as (c' & Hs & _). injection Hs as <- ->. constructor.
    + inversion H.
    + apply class_inv in H. destruct H as (c' & Hs & Hp). injection Hs as <- ->. congruence.
  - assert (Hcat : matches (Form.Cat (Form.after c r1) r2) s <->
                   exists s1 s2, s = s1 ++ s2 /\ matches r1 (c :: s1) /\ matches r2 s2).
    { split.
      - intros H. apply cat_inv in H. destruct H as (s1 & s2 & -> & H1 & H2).
        exists s1, s2. rewrite <- IH1. auto.
      - intros (s1 & s2 & -> & H1 & H2). constructor; [apply IH1|]; assumption. }
    assert (Hsplit : matches (Form.Cat r1 r2) (c :: s) <->
                     (exists s1 s2, s = s1 ++ s2 /\ matches r1 (c :: s1) /\ matches r2 s2) \/
                     (matches r1 [] /\ matches r2 (c :: s))).
    { split.
      - intros H. apply cat_inv in H. destruct H as (s1 & s2 & E & H1 & H2).
        destruct s1 as [|c1 s1]; simpl in E.
        + subst s2. right. auto.
        + injection E as <- ->. left. eauto.
      - intros [(s1 & s2 & -> & H1 & H2)|[H1 H2]].
        + apply (matches_cat _ _ (c :: s1) s2); assumption.
        + apply (matches_cat _ _ [] (c :: s)); assumption. }
    rewrite Hsplit.
    destruct (Form.nullable r1) eqn:En.
    + split.
      * intros H. apply or_inv in H. destruct H as [H|H].
        -- left. apply Hcat, H.
        -- right. split; [apply nullable_matches, En | apply IH2, H].
      * intros [H|[_ H]]; [apply matches_or_l, Hcat, H | apply matches_or_r, IH2, H].
    + rewrite Hcat. split; [auto|].
      intros [H|[H _]]; [exact H|]. apply nullable_matches in H. congruence.
  - split; intros H; apply or_inv in H; destruct H as [H|H].
    + apply matches_or_l, IH1, H.
    + apply matches_or_r, IH2, H.
    + apply matches_or_l, IH1, H.
    + apply matches_or_r, IH2, H.
  - split.
    + intros H. apply cat_inv in H. destruct H as (s1 & s2 & -> & H1 & H2).
      apply (matches_star_cons _ (c :: s1) s2); [apply IH|]; assumption.
    + intros H. apply star_cons_inv in H. destruct H as (s1 & s2 & -> & H1 & H2).
      constructor; [apply IH|]; assumption.
Qed.

Lemma test_matches (r : Form.regex) (s : Form.jsstring) :
  Form.test r s = true <-> matches r s.
Proof.
  unfold Form.test. revert r. induction s as [|c s IH]; intros r; simpl.
  - apply nullable_matches.
  - rewrite IH. apply after_matches.
Qed.

Lemma class_matches (p : N -> bool) (s : Form.jsstring) :
  matches (Form.Class p) s <-> exists c, s = [c] /\ p c = true.
Proof.
  split; [apply class_inv|]. intros (c & -> & H). constructor. exact H.
Qed.

Lemma unit_matches (c : N) (s : Form.jsstring) :
  matches (Form.Class (N.eqb c)) s <-> s = [c].
Proof.
  rewrite class_matches. split.
  - intros (c' & -> & H). apply N.eqb_eq in H. congruence.
  - intros ->. exists c. split; [reflexivity | apply N.eqb_refl].
Qed.

Lemma star_class_matches (p : N -> bool) (s : Form.jsstring) :
  matches (Form.Star (Form.Class p)) s <-> forallb p s = true.
Proof.
  induction s as [|c s IH]; simpl.
  - split; [reflexivity | constructor].
  - rewrite andb_true_iff, <- IH. split.
    + intros H. apply star_cons_inv in H. destruct H as (s1 & s2 & -> & H1 & H2).
      apply class_inv in H1. destruct H1 as (c' & E & Hp).
      injection E as -> ->. split; assumption.
    + intros [Hp H]. apply (matches_star_cons _ [c] s); [constructor|]; assumption.
Qed.

Lemma plus_class_matches (p : N -> bool) (s : Form.jsstring) :
  matches (Form.Plus (Form.Class p)) s <-> s <> [] /\ forallb p s = true.
Proof.
  unfold Form.Plus. split.
  - intros H. apply cat_inv in H. destruct H as (s1 & s2 & -> & H1 & H2).
    apply class_inv in H1. destruct H1 as (c & -> & Hp).
    apply star_class_matches in H2. simpl. rewrite Hp, H2.
    split; [discriminate | reflexivity].
  - intros [Hne H]. destruct s as [|c s]; [congruence|].
    simpl in H. apply andb_true_iff in H. destruct H as [Hp H].
    apply (matches_cat _ _ [c] s); [constructor | apply star_class_matches]; assumption.
Qed.

(** X14: the pattern of the contact form accepts exactly the strings made
    of a local part, [@], a domain and, after a dot, an ending, the three of
    them not empty and free of white space and of [@]. *)
Theorem email_pattern_shape (s : Form.jsstring) :
  Form.test Form.email_pattern s = true <-> address_shaped s.
Proof.
  rewrite test_matches. unfold Form.email_pattern, address_shaped. split.
  - intros H.
    apply cat_inv in H. destruct H as (a & s1 & -> & Ha & H).
    apply cat_inv in H. destruct H as (at_ & s2 & -> & Hat & H).
    apply cat_inv in H. destruct H as (b & s3 & -> & Hb & H).
    apply cat_inv in H. destruct H as (dot & c & -> & Hdot & Hc).
    apply unit_matches in Hat, Hdot. subst.
    apply plus_class_matches in Ha, Hb, Hc.
    exists a, b, c. tauto.
  - intros (a & b & c & -> & Ha & Hb & Hc & Pa & Pb & Pc).
    repeat (apply matches_cat);
      try (apply plus_class_matches; split; assumption);
      apply unit_matches; reflexivity.
Qed.

Lemma email_pattern_shape_witness : address_shaped (Form.units "me@site.org").
Proof.
  apply (proj1 (email_pattern_shape (Form.units "me@site.org"))). vm_compute. reflexivity.
Defined.

Example email_pattern_samples :
  map (fun s => Form.test Form.email_pattern (Form.units s))
    ["a@b.c"; "a@b"; "a@b."; "a@.c"; "@b.c"; "a@@b.c"; "a b@c.d"; "a@b.c.d"; "a@b..c"]%string =
  [true; false; false; false; false; false; false; true; true].
Proof. vm_compute. reflexivity. Qed.


Lemma forallb_rev {A : Type} (p : A -> bool) (l : list A) :
  forallb p (rev l) = forallb p l.
Proof.
  induction l as [|x l IH]; [reflexivity|].
  simpl. rewrite forallb_app, IH. simpl. rewrite andb_true_r. apply andb_comm.
Qed.

Lemma trimStart_blank (a s : Form.jsstring) :
  blank a -> Form.trimStart (a ++ s) = Form.trimStart s.
Proof.
  unfold blank. induction a as [|c a IH]; [reflexivity|].
  simpl. intros H. apply andb_true_iff in H. destruct H as [-> H]. apply IH, H.
Qed.

Lemma trimStart_split (s : Form.jsstring) :
  exists a, s = a ++ Form.trimStart s /\ blank a /\
    forall c t, Form.trimStart s = c :: t -> Form.is_space c = false.
Proof.
  induction s as [|c s (a & E & Ha & Hh)].
  - exists []. repeat split. discriminate.
  - simpl. destruct (Form.is_space c) eqn:Ec.
    + exists (c :: a). split; [simpl; congruence|]. split; [|exact Hh].
      unfold blank. simpl. rewrite Ec. exact Ha.
    + exists []. repeat split. intros c' t E'. injection E' as <- _. exact Ec.
Qed.

Lemma trimStart_nil (s : Form.jsstring) : Form.trimStart s = [] <-> blank s.
Proof.
  unfold blank. induction s as [|c s IH]; simpl; [tauto|].
  destruct (Form.is_space c); simpl; [exact IH|]. split; discriminate.
Qed.

Lemma trim_nil (s : Form.jsstring) : Form.trim s = [] <-> blank s.
Proof.
  unfold Form.trim. split.
  - intros H. apply (f_equal (@rev N)) in H. rewrite rev_involutive in H.
    simpl in H. apply trimStart_nil in H. unfold blank in H.
    rewrite forallb_rev in H.
    destruct (trimStart_split s) as (a & E & Ha & Hh).
    destruct (Form.trimStart s) as [|c t] eqn:Et.
    + apply trimStart_nil, Et.
    + simpl in H. rewrite (Hh c t eq_refl) in H. discriminate.
  - intros H. apply trimStart_nil in H. rewrite H. reflexivity.
Qed.

Lemma shaped_ends (s : Form.jsstring) :
  address_shaped s ->
  exists c t c' t', s = c :: t /\ s = t' ++ [c'] /\
    Form.is_space c = false /\ Form.is_space c' = false.
Proof.
  intros (a & b & c & -> & Ha & Hb & Hc & Pa & Pb & Pc).
  destruct a as [|x a]; [congruence|].
  destruct (exists_last Hc) as (c0 & y & ->).
  exists x, (a ++ [64%N] ++ b ++ [46%N] ++ c0 ++ [y]), y,
    ((x :: a) ++ [64%N] ++ b ++ [46%N] ++ c0).
  split; [reflexivity|]. split; [now rewrite <- !app_assoc|].
  simpl in Pa. apply andb_true_iff in Pa. destruct Pa as [Px _].
  rewrite forallb_app in Pc. apply andb_true_iff in Pc. destruct Pc as [_ Py].
  simpl in Py. rewrite andb_true_r in Py.
  unfold Form.not_space_at in Px, Py.
  apply negb_true_iff, orb_false_iff in Px, Py. tauto.
Qed.

Lemma trim_core (a core b : Form.jsstring) (c c' : N) (t t' : Form.jsstring) :
  blank a -> blank b -> core = c :: t -> core = t' ++ [c'] ->
  Form.is_space c = false -> Form.is_space c' = false ->
  Form.trim (a ++ core ++ b) = core.
Proof.
  intros Ha Hb E E' Hc Hc'. unfold Form.trim.
  rewrite (trimStart_blank a _ Ha).
  assert (E1 : Form.trimStart (core ++ b) = core ++ b).
  { rewrite E. simpl. rewrite Hc. reflexivity. }
  rewrite E1, rev_app_distr, trimStart_blank
    by (unfold blank; rewrite forallb_rev; exact Hb).
  assert (E2 : Form.trimStart (rev core) = rev core).
  { rewrite E', rev_app_distr. simpl. rewrite Hc'. reflexivity. }
  rewrite E2. apply rev_involutive.
Qed.

Lemma trim_split (s : Form.jsstring) :
  exists a b, s = a ++ Form.trim s ++ b /\ blank a /\ blank b.
Proof.
  destruct (trimStart_split s) as (a & E & Ha & _).
  destruct (trimStart_split (rev (Form.trimStart s))) as (b & E' & Hb & _).
  exists a, (rev b). split; [|split; [exact Ha|]].
  - unfold Form.trim. rewrite <- rev_app_distr, <- E', rev_involutive. exact E.
  - unfold blank. rewrite forallb_rev. exact Hb.
Qed.

Lemma shaped_trim (e : Form.jsstring) :
  address_shaped (Form.trim e) <-> address_within (Some e).
Proof.
  split.
  - intros H. destruct (trim_split e) as (a & b & E & Ha & Hb).
    exists a, (Form.trim e), b. rewrite <- E. auto.
  - intros (a & core & b & E & Ha & Hb & H). injection E as ->.
    destruct (shaped_ends core H) as (c & t & c' & t' & E1 & E2 & Hc & Hc').
    rewrite (trim_core a core b c c' t t'); assumption.
Qed.

Lemma falsy_trim (v : option Form.jsstring) :
  Form.falsy (option_map Form.trim v) = false <-> filled v.
Proof.
  unfold filled. destruct v as [s|]; simpl.
  - destruct (Form.trim s) as [|c t] eqn:E.
    + apply trim_nil in E. split; [discriminate|].
      intros (s' & E' & H). injection E' as <-. contradiction.
    + split; [|reflexivity]. intros _. exists s. split; [reflexivity|].
      intros H. apply trim_nil in H. congruence.
  - split; [discriminate|]. intros (s & E & _). discriminate.
Qed.

Lemma shaped_filled (v : option Form.jsstring) : address_within v -> filled v.
Proof.
  intros (a & core & b & -> & Ha & Hb & H).
  exists (a ++ core ++ b). split; [reflexivity|].
  intros Hbl. apply trim_nil in Hbl.
  destruct (shaped_ends core H) as (c & t & c' & t' & E1 & E2 & Hc & Hc').
  rewrite (trim_core a core b c c' t t') in Hbl by assumption.
  congruence.
Qed.

(** X15: the submit listener lets the form go exactly when the name and the
    message are in the form and not blank and the email field holds, between
    white space, an address of the shape above. *)
Theorem validate_accepts (name email message : option Form.jsstring) :
  Form.validate name email message = Form.accepted <->
  filled name /\ filled message /\ address_within email.
Proof.
  unfold Form.validate.
  destruct (Form.falsy (option_map Form.trim name)) eqn:En.
  { simpl. split; [discriminate|]. intros (H & _). apply falsy_trim in H. congruence. }
  destruct (Form.falsy (option_map Form.trim email)) eqn:Ee.
  { simpl. split; [discriminate|].
    intros (_ & _ & H). apply shaped_filled, falsy_trim in H. congruence. }
  destruct (Form.falsy (option_map Form.trim message)) eqn:Em.
  { simpl. split; [discriminate|]. intros (_ & H & _). apply falsy_trim in H. congruence. }
  simpl. apply falsy_trim in En, Em, Ee.
  destruct Ee as (e & -> & He). simpl.
  destruct (Form.test Form.email_pattern (Form.trim e)) eqn:Et; simpl.
  - apply email_pattern_shape, shaped_trim in Et. tauto.
  - split; [discriminate|]. intros (_ & _ & H).
    apply shaped_trim, email_pattern_shape in H. congruence.
Qed.

Lemma validate_accepts_witness :
  filled (Some (Form.units "Ann")) /\ filled (Some (Form.units "Hello there")) /\
  address_within (Some (Form.units "  me@site.org ")).
Proof.
  apply (proj1 (validate_accepts (Some (Form.units "Ann"))
                  (Some (Form.units "  me@site.org ")) (Some (Form.units "Hello there")))).
  vm_compute. reflexivity.
Defined.

(** X16: the two messages of the contact form.  The listener asks to fill in
    all fields exactly when one of the three is missing or blank, also when
    the email is the blank one; it asks for a valid address exactly when the
    three are filled and the email is not an address between white space. *)
Theorem validate_messages (name email message : option Form.jsstring) :
  (Form.validate name email message = Form.rejected "Please fill in all fields." <->
   ~ (filled name /\ filled email /\ filled message)) /\
  (Form.validate name email message =
     Form.rejected "Please enter a valid email address." <->
   filled name /\ filled email /\ filled message /\ ~ address_within email).
Proof.
  unfold Form.validate.
  destruct (Form.falsy (option_map Form.trim name)) eqn:En.
  { simpl. assert (~ filled name) by (rewrite <- falsy_trim; congruence).
    split; (split; [try discriminate; tauto | try tauto]). }
  destruct (Form.falsy (option_map Form.trim email)) eqn:Ee.
  { simpl. assert (~ filled email) by (rewrite <- falsy_trim; congruence).
    split; (split; [try discriminate; tauto | try tauto]). }
  destruct (Form.falsy (option_map Form.trim message)) eqn:Em.
  { simpl. assert (~ filled message) by (rewrite <- falsy_trim; congruence).
    split; (split; [try discriminate; tauto | try tauto]). }
  simpl. apply falsy_trim in En, Em. pose proof Ee as Fe. apply falsy_trim in Fe.
  destruct Fe as (e & -> & He). simpl.
  assert (Fe : filled (Some e)) by (exists e; auto).
  destruct (Form.test Form.email_pattern (Form.trim e)) eqn:Et; simpl.
  - apply email_pattern_shape, shaped_trim in Et.
    split; (split; [try discriminate; tauto | try tauto]).
  - assert (~ address_within (Some e)).
    { rewrite <- shaped_trim, <- email_pattern_shape. congruence. }
    split; (split; [try discriminate; tauto | try tauto]).
Qed.

Lemma validate_messages_witness :
  ~ address_within (Some (Form.units "me@site")).
Proof.
  destruct (validate_messages (Some (Form.units "Ann")) (Some (Form.units "me@site"))
              (Some (Form.units "Hello"))) as [_ H].
  apply (proj1 H). vm_compute. reflexivity.
Defined.

Example blank_email_asks_for_all_fields :
  Form.validate (Some (Form.units "Ann")) (Some (Form.units "   ")) (Some (Form.units "Hello"))
  = Form.rejected "Please fill in all fields.".
Proof. vm_compute. reflexivity. Qed.
